(** * buffet: command and state synchronisation, verified against its source

    A shallow embedding of the buffet daemon's D-Bus facade
    ([buffet/manager.cc]), of the error-chain conversion helper
    ([buffet/weave_error_conversion.h]) and of the collaborators they drive
    (state manager, state-change queue, command dictionary, command
    instances).  A collaborator whose implementation is not among the
    sources covered here is modelled from the specification, and its
    definition says so. *)

From Stdlib Require Import ZArith Lia Floats.
From stdpp Require Import base option list strings gmap pretty.

Set Warnings "-register-all".
Local Open Scope Z_scope.

(* ===================================================================== *)
(** * Error chains *)
(* ===================================================================== *)

Module Errors.

(** [tracked_objects::Location]: where an error was raised. *)
Record Location := MkLocation {
  function_name : string;
  file_name : string;
  line_number : Z;
  program_counter : Z
}.

(** What an error object keeps of a [Location] (its
    [LocationSnapshot]): the program counter is not retained. *)
Record LocationSnapshot := MkSnapshot {
  snap_function_name : string;
  snap_file_name : string;
  snap_line_number : Z
}.

Definition take_snapshot (l : Location) : LocationSnapshot :=
  MkSnapshot (function_name l) (file_name l) (line_number l).

(** The two error libraries ([brillo::Error] / [chromeos::Error] and
    [weave::Error]) have the same shape; the tag keeps them apart the way
    the two C++ classes are distinct types. *)
Inductive ErrorLib := Brillo | Weave.

(** An error owns its inner error ([std::unique_ptr<Error> inner_error_]),
    so a chain is a finite list-like structure, outermost error first. *)
Inductive Error (lib : ErrorLib) : Type :=
  MkError (location : LocationSnapshot) (domain code message : string)
          (inner_error : option (Error lib)).
Arguments MkError {lib} _ _ _ _ _.

(** [ErrorPtr] is [std::unique_ptr<Error>]; [None] is the null pointer. *)
Abbreviation ErrorPtr lib := (option (Error lib)).

Definition GetLocation {lib} (e : Error lib) : LocationSnapshot :=
  match e with MkError l _ _ _ _ => l end.
Definition GetDomain {lib} (e : Error lib) : string :=
  match e with MkError _ d _ _ _ => d end.
Definition GetCode {lib} (e : Error lib) : string :=
  match e with MkError _ _ c _ _ => c end.
Definition GetMessage {lib} (e : Error lib) : string :=
  match e with MkError _ _ _ m _ => m end.
Definition GetInnerError {lib} (e : Error lib) : ErrorPtr lib :=
  match e with MkError _ _ _ _ i => i end.

(** One link of a chain, independent of the library it lives in. *)
Record Entry := MkEntry {
  entry_location : LocationSnapshot;
  entry_domain : string;
  entry_code : string;
  entry_message : string
}.

Definition entry_of {lib} (e : Error lib) : Entry :=
  MkEntry (GetLocation e) (GetDomain e) (GetCode e) (GetMessage e).

(** The chain hanging off a pointer, outermost error first. *)
Fixpoint chain_from {lib} (e : Error lib) : list Entry :=
  entry_of e ::
    match GetInnerError e with
    | Some i => chain_from i
    | None => []
    end.

Definition chain {lib} (p : ErrorPtr lib) : list Entry :=
  match p with Some e => chain_from e | None => [] end.

(** The static [Destination::AddTo(&error, location, domain, code,
    message)] that [ConvertError] requires of its destination type.  The
    first argument is the content of the slot the pointer designates, the
    result its new content; the pointer itself is taken to designate a
    slot (handed a null pointer, [AddTo] only logs). *)
Class ErrorSink (D : Type) :=
  AddTo : option D → Location → string → string → string → option D.

(** [Error::AddTo]: the new error becomes the outermost one and takes
    ownership of the previous chain as its inner error. *)
#[export] Instance Error_AddTo lib : ErrorSink (Error lib) :=
  λ error location domain code message,
    Some (MkError (take_snapshot location) domain code message error).

(** A destination that only records the calls it receives, oldest call
    first; used to observe the order in which a chain is converted. *)
Record AddToCalls := MkCalls { calls : list Entry }.

#[export] Instance Recorder_AddTo : ErrorSink AddToCalls :=
  λ error location domain code message,
    let earlier := match error with Some r => calls r | None => [] end in
    Some (MkCalls (earlier ++
                   [MkEntry (take_snapshot location) domain code message])).

(** The calls a recorder received, oldest first. *)
Definition recorded (r : option AddToCalls) : list Entry :=
  match r with Some r => calls r | None => [] end.

End Errors.

(* ===================================================================== *)
(** * [buffet/weave_error_conversion.h] *)
(* ===================================================================== *)

Module WeaveErrorConversion.
Import Errors.

(** [std::string::c_str()] read back as a C string: the characters up to
    the first NUL. *)
Fixpoint c_str (s : string) : string :=
  match s with
  | EmptyString => EmptyString
  | String c rest =>
      if Ascii.eqb c Ascii.zero then EmptyString else String c (c_str rest)
  end.

(** A link as [ConvertError] hands it over: the names of the location go
    through [c_str], the rest is passed as it is. *)
Definition handed_over (e : Entry) : Entry :=
  MkEntry (MkSnapshot (c_str (snap_function_name (entry_location e)))
                      (c_str (snap_file_name (entry_location e)))
                      (snap_line_number (entry_location e)))
          (entry_domain e) (entry_code e) (entry_message e).

Section ConvertError.
(** The template parameters [Source] (an error class of library
    [src_lib]) and [Destination] (anything offering [AddTo]). *)
Context {src_lib : ErrorLib} {Destination : Type} `{!ErrorSink Destination}.

(** [tracked_objects::GetProgramCounter()] at the call site inside
    [ConvertError]; the same address at every level of the recursion. *)
Variable GetProgramCounter : Z.

(** [template <class Source, class Destination>
     void ConvertError(const Source& source,
                       std::unique_ptr<Destination>* destination)] *)
Fixpoint ConvertError (source : Error src_lib)
         (destination : option Destination) : option Destination :=
  let destination :=
    match GetInnerError source with
    | Some inner_error => ConvertError inner_error destination
    | None => destination
    end in
  let location := GetLocation source in
  AddTo destination
        (MkLocation (c_str (snap_function_name location))
                    (c_str (snap_file_name location))
                    (snap_line_number location) GetProgramCounter)
        (GetDomain source) (GetCode source) (GetMessage source).
End ConvertError.

End WeaveErrorConversion.


(* ===================================================================== *)
(** * Values carried by commands, state properties and D-Bus variants *)
(* ===================================================================== *)

Module Values.

(** The JSON-like value tree ([base::Value]): null, or an integer, a
    double, a boolean, a string, an object or an array.  An object keeps
    its members in document order. *)
Inductive Value :=
| VNull
| VInt (n : Z)
| VDouble (d : float)
| VBool (b : bool)
| VString (s : string)
| VObject (members : list (string * Value))
| VArray (items : list Value).

(** [base::DictionaryValue]: the members of an object. *)
Abbreviation ValueMap := (list (string * Value)).

(** First member with the given key. *)
Fixpoint find_member (key : string) (members : ValueMap) : option Value :=
  match members with
  | [] => None
  | (k, v) :: rest =>
      if String.eqb k key then Some v else find_member key rest
  end.

(** [chromeos::Any]: an empty box or a value of one of the types a D-Bus
    variant transports. *)
Inductive Any :=
| AnyEmpty
| AnyOf (v : Value).

(** [Any::IsTypeCompatible<std::string>()]. *)
Definition IsTypeCompatible_string (a : Any) : bool :=
  match a with
  | AnyOf (VString _) => true
  | _ => false
  end.

(** [Any::Get<std::string>()]; the callers in this development reach it
    only behind [IsTypeCompatible_string], the default stands for the
    other cases. *)
Definition Get_string (a : Any) : string :=
  match a with
  | AnyOf (VString s) => s
  | _ => ""
  end.

(** [chromeos::VariantDictionary] is a [std::map<std::string, Any>]; a
    loop over it visits its entries in ascending key order.  The model is
    the list of entries in the order the loop visits them. *)
Abbreviation VariantDictionary := (list (string * Any)).

End Values.

(* ===================================================================== *)
(** * Error kinds of the core *)
(* ===================================================================== *)

Module Failures.
Import Errors.

(** Modelled from the spec: the error kinds of section 7; the classes
    that raise them are not among the sources covered here. *)
Inductive ErrorKind :=
| ParseError
| TypeError
| ValidationError
| DuplicateNameError
| InvalidStateError
| NotFoundError.

#[export] Instance ErrorKind_eq_dec : EqDecision ErrorKind.
Proof. solve_decision. Defined.

(** Every kind carries a stable machine-readable code ... *)
Definition error_code (k : ErrorKind) : string :=
  match k with
  | ParseError => "ParseError"
  | TypeError => "TypeError"
  | ValidationError => "ValidationError"
  | DuplicateNameError => "DuplicateNameError"
  | InvalidStateError => "InvalidStateError"
  | NotFoundError => "NotFoundError"
  end.

(** ... plus a human-readable message; for a validation error the message
    is the path of the offending property. *)
Record Failure := MkFailure {
  failure_kind : ErrorKind;
  failure_message : string
}.

Definition kErrorDomainBuffet : string := "buffet".
Definition kErrorDomainGCD : string := "gcd".

(** [FROM_HERE] inside one of the modelled collaborators. *)
Definition here (function : string) : Location :=
  MkLocation function "buffet" 0 0.

(** How a collaborator reports a failure through a
    [chromeos::ErrorPtr*]: one more link on the chain. *)
Definition Raise (f : Failure) (function : string)
           (error : ErrorPtr Brillo) : ErrorPtr Brillo :=
  AddTo error (here function) kErrorDomainBuffet
        (error_code (failure_kind f)) (failure_message f).

End Failures.

(* ===================================================================== *)
(** * Object schemas *)
(* ===================================================================== *)

Module ObjectSchemas.
Import Values.

(** Modelled from the spec: the schema nodes of [buffet/commands/
    object_schema.h], a header the sources only include.  A tagged union
    over the six types, each with its own constraints: inclusive bounds
    and allowed values for the numeric types, allowed values for strings,
    required or optional properties for objects (and whether properties
    outside the declaration are allowed), an item schema for arrays. *)
Inductive Schema :=
| SInteger (minimum maximum : option Z) (enum : option (list Z))
| SNumber (minimum maximum : option float) (enum : option (list float))
| SBoolean
| SString (enum : option (list string))
| SObject (properties : list (string * bool * Schema))
          (additional_properties : bool)
| SArray (items : Schema).

(** The schema of a whole parameter or result object. *)
Record ObjectSchema := MkObjectSchema {
  properties : list (string * bool * Schema);
  additional_properties : bool
}.

Definition as_schema (o : ObjectSchema) : Schema :=
  SObject (properties o) (additional_properties o).

Definition in_bounds_Z (lo hi : option Z) (n : Z) : bool :=
  match lo with Some l => l <=? n | None => true end
  && match hi with Some h => n <=? h | None => true end.

Definition in_bounds_float (lo hi : option float) (d : float) : bool :=
  match lo with Some l => PrimFloat.leb l d | None => true end
  && match hi with Some h => PrimFloat.leb d h | None => true end.

Definition allowed {A} (eqb : A → A → bool) (enum : option (list A))
           (x : A) : bool :=
  match enum with
  | Some values => existsb (eqb x) values
  | None => true
  end.

Definition child_path (path name : string) : string :=
  if String.eqb path "" then name else (path +:+ "." +:+ name)%string.

Definition item_path (path : string) (index : nat) : string :=
  (path +:+ "[" +:+ pretty index +:+ "]")%string.

Definition declares (properties : list (string * bool * Schema))
           (name : string) : bool :=
  existsb (λ p, String.eqb p.1.1 name) properties.

(** Modelled from the spec: [Validate(value, schema)] of section 4.1.
    The result is the path of the first violation found, [None] when the
    value conforms.  Declared properties are checked in declaration order
    (a required one must be present, a present one must be valid), then
    the members the schema does not declare are rejected unless
    additional properties are allowed; array items are checked in order.
    The function is total and touches nothing but its arguments. *)
Fixpoint Validate (path : string) (value : Value) (schema : Schema)
  : option string :=
  match schema, value with
  | SInteger lo hi enum, VInt n =>
      if in_bounds_Z lo hi n && allowed Z.eqb enum n then None else Some path
  | SNumber lo hi enum, VDouble d =>
      if in_bounds_float lo hi d && allowed PrimFloat.eqb enum d
      then None else Some path
  | SBoolean, VBool _ => None
  | SString enum, VString s =>
      if allowed String.eqb enum s then None else Some path
  | SObject props additional, VObject members =>
      let declared :=
        (fix check (ps : list (string * bool * Schema)) : option string :=
           match ps with
           | [] => None
           | (name, required, s) :: ps' =>
               match find_member name members with
               | Some v =>
                   match Validate (child_path path name) v s with
                   | Some bad => Some bad
                   | None => check ps'
                   end
               | None =>
                   if required then Some (child_path path name)
                   else check ps'
               end
           end) props in
      match declared with
      | Some bad => Some bad
      | None =>
          if additional then None
          else match find (λ m : string * Value, negb (declares props m.1))
                          members with
               | Some m => Some (child_path path m.1)
               | None => None
               end
      end
  | SArray item, VArray vs =>
      (fix each (index : nat) (vs : list Value) : option string :=
         match vs with
         | [] => None
         | v :: vs' =>
             match Validate (item_path path index) v item with
             | Some bad => Some bad
             | None => each (S index) vs'
             end
         end) 0%nat vs
  | _, _ => Some path
  end.

Definition option_eqb {A} (eqb : A → A → bool) (a b : option A) : bool :=
  match a, b with
  | Some x, Some y => eqb x y
  | None, None => true
  | _, _ => false
  end.

Fixpoint list_eqb {A} (eqb : A → A → bool) (a b : list A) : bool :=
  match a, b with
  | [], [] => true
  | x :: a', y :: b' => eqb x y && list_eqb eqb a' b'
  | _, _ => false
  end.

(** Modelled from the spec: [Equals(a, b)] of section 4.1, structural
    equality of two schema nodes. *)
Fixpoint Equals (a b : Schema) : bool :=
  match a, b with
  | SInteger lo hi enum, SInteger lo' hi' enum' =>
      option_eqb Z.eqb lo lo' && option_eqb Z.eqb hi hi'
      && option_eqb (list_eqb Z.eqb) enum enum'
  | SNumber lo hi enum, SNumber lo' hi' enum' =>
      option_eqb PrimFloat.eqb lo lo' && option_eqb PrimFloat.eqb hi hi'
      && option_eqb (list_eqb PrimFloat.eqb) enum enum'
  | SBoolean, SBoolean => true
  | SString enum, SString enum' =>
      option_eqb (list_eqb String.eqb) enum enum'
  | SObject props additional, SObject props' additional' =>
      Bool.eqb additional additional'
      && (fix same (ps ps' : list (string * bool * Schema)) : bool :=
            match ps, ps' with
            | [], [] => true
            | (n, r, s) :: t, (n', r', s') :: t' =>
                String.eqb n n' && Bool.eqb r r' && Equals s s' && same t t'
            | _, _ => false
            end) props props'
  | SArray item, SArray item' => Equals item item'
  | _, _ => false
  end.

Definition ObjectSchema_equals (a b : ObjectSchema) : bool :=
  Equals (as_schema a) (as_schema b).

(** Validation of a parameter or result object against its schema. *)
Definition ValidateObject (root : string) (members : ValueMap)
           (o : ObjectSchema) : option string :=
  Validate root (VObject members) (as_schema o).

End ObjectSchemas.

(* ===================================================================== *)
(** * The bounded queue of state changes *)
(* ===================================================================== *)

Module StateChanges.
Import Values.

(** Modelled from the spec: a state change record (section 3), a
    timestamp and the new values of the properties that changed. *)
Record StateChange := MkStateChange {
  timestamp : Z;
  changed_properties : gmap string Value
}.

(** Modelled from the spec: the [StateChangeQueue] of
    [buffet/states/state_change_queue.h], of which the sources have the
    construction with its capacity only.  A FIFO of records, oldest
    first, bounded by [max_queue_size]. *)
Record StateChangeQueue := MkQueue {
  max_queue_size : nat;
  state_changes : list StateChange
}.

Definition new_queue (max_queue_size : nat) : StateChangeQueue :=
  MkQueue max_queue_size [].

(** Last-writer-wins merge of an older record into a later one: the later
    record keeps its timestamp and its own values, and gains the
    properties only the older one mentions. *)
Definition merge_into (later older : StateChange) : StateChange :=
  MkStateChange (timestamp later)
                (changed_properties later ∪ changed_properties older).

(** Merge [older] into the last of [records], the record a newly
    appended one will follow. *)
Fixpoint merge_into_last (older : StateChange) (records : list StateChange)
  : list StateChange :=
  match records with
  | [] => []
  | [r] => [merge_into r older]
  | r :: rest => r :: merge_into_last older rest
  end.

(** Modelled from the spec: coalescing at capacity (section 4.5).  The
    oldest record leaves the queue and its changes are merged into the
    predecessor of the record about to be appended. *)
Definition coalesce (records : list StateChange) : list StateChange :=
  match records with
  | [] => []
  | oldest :: rest => merge_into_last oldest rest
  end.

(** Modelled from the spec: [NotifyPropertiesUpdated(timestamp, changes)]
    appends one record, coalescing first when the queue is at capacity. *)
Definition NotifyPropertiesUpdated (ts : Z) (changes : gmap string Value)
           (q : StateChangeQueue) : StateChangeQueue :=
  let kept :=
    if (max_queue_size q <=? length (state_changes q))%nat
    then coalesce (state_changes q)
    else state_changes q in
  MkQueue (max_queue_size q) (kept ++ [MkStateChange ts changes]).

(** Modelled from the spec: [GetAllChanges()] returns everything buffered
    since the last drain in chronological order, and clears it when asked
    to. *)
Definition GetAllChanges (clear : bool) (q : StateChangeQueue)
  : list StateChange * StateChangeQueue :=
  (state_changes q,
   if clear then MkQueue (max_queue_size q) [] else q).

(** The latest state a consumer reconstructs from drained records: they
    are applied oldest first, a later record overriding an earlier one
    property by property. *)
Definition merged_state (records : list StateChange) : gmap string Value :=
  foldl (λ acc r, changed_properties r ∪ acc) ∅ records.

(** What a producer or consumer does to the queue. *)
Inductive QueueOp :=
| Notify (ts : Z) (changes : gmap string Value)
| Drain.

(** A client's view of a run: the queue, and the change sets notified
    since the previous drain, oldest first. *)
Definition run_op (st : StateChangeQueue * list (gmap string Value))
           (op : QueueOp) : StateChangeQueue * list (gmap string Value) :=
  match op with
  | Notify ts changes =>
      (NotifyPropertiesUpdated ts changes st.1, st.2 ++ [changes])
  | Drain => ((GetAllChanges true st.1).2, [])
  end.

Definition run (capacity : nat) (ops : list QueueOp)
  : StateChangeQueue * list (gmap string Value) :=
  foldl run_op (new_queue capacity, []) ops.

(** The last value written for a property by a sequence of change sets,
    searched from the most recent one backwards. *)
Fixpoint last_written (property : string) (writes : list (gmap string Value))
  : option Value :=
  match writes with
  | [] => None
  | w :: later =>
      match last_written property later with
      | Some v => Some v
      | None => w !! property
      end
  end.

End StateChanges.

(* ===================================================================== *)
(** * The state manager *)
(* ===================================================================== *)

Module StateManagers.
Import Errors Values Failures ObjectSchemas StateChanges.

(** Modelled from the spec: the current value of a state property
    (section 3), with the time it was set. *)
Record StateValue := MkStateValue {
  value : Value;
  updated : Z
}.

(** Modelled from the spec: the [StateManager] of
    [buffet/states/state_manager.h].  It owns the declared schema and the
    current value of every property; the queue it feeds belongs to the
    [Manager], which hands it over by pointer, so the queue is threaded
    next to the manager rather than stored in it. *)
Record StateManager := MkStateManager {
  declared : gmap string Schema;
  current : gmap string StateValue
}.

(** The check [SetPropertyValue] makes before it touches anything: the
    property must be declared and the value must conform to its schema.
    The result is the value to store, or the failure to report. *)
Definition validated (sm : StateManager) (name : string) (v : Any)
  : Failure + Value :=
  match declared sm !! name, v with
  | Some schema, AnyOf new_value =>
      match Validate name new_value schema with
      | Some path => inl (MkFailure ValidationError path)
      | None => inr new_value
      end
  | _, _ => inl (MkFailure ValidationError name)
  end.

(** Modelled from the spec: [SetPropertyValue(name, value, timestamp,
    &error)] of section 4.6.  It validates the value against the
    property's declared schema, failing with a validation error
    otherwise; on success it updates the current value and appends a
    change record holding that single property to the queue.  The result
    is the success flag with the manager, the queue and the error slot as
    the call leaves them. *)
Definition SetPropertyValue (name : string) (v : Any) (ts : Z)
           (sm : StateManager) (queue : StateChangeQueue)
           (error : ErrorPtr Brillo)
  : bool * StateManager * StateChangeQueue * ErrorPtr Brillo :=
  match validated sm name v with
  | inr new_value =>
      (true,
       MkStateManager (declared sm)
                      (<[name := MkStateValue new_value ts]> (current sm)),
       NotifyPropertiesUpdated ts {[name := new_value]} queue,
       error)
  | inl failure =>
      (false, sm, queue, Raise failure "SetPropertyValue" error)
  end.

(** The properties of a batch that pass the check, with the value each
    one sets, and the failures of the others, both in batch order. *)
Definition accepted (sm : StateManager) (batch : VariantDictionary)
  : list (string * Value) :=
  omap (λ entry : string * Any,
          match validated sm entry.1 entry.2 with
          | inr new_value => Some (entry.1, new_value)
          | inl _ => None
          end) batch.

Definition rejected (sm : StateManager) (batch : VariantDictionary)
  : list Failure :=
  omap (λ entry : string * Any,
          match validated sm entry.1 entry.2 with
          | inr _ => None
          | inl failure => Some failure
          end) batch.

(** The link a failed [SetPropertyValue] leaves on the error chain. *)
Definition report (failure : Failure) : Entry :=
  MkEntry (take_snapshot (here "SetPropertyValue")) kErrorDomainBuffet
          (error_code (failure_kind failure)) (failure_message failure).

(** Committing one accepted property: the new current value, and the
    record queued for it. *)
Definition commit (ts : Z) (values : gmap string StateValue)
           (write : string * Value) : gmap string StateValue :=
  <[write.1 := MkStateValue write.2 ts]> values.

Definition enqueue (ts : Z) (queue : StateChangeQueue)
           (write : string * Value) : StateChangeQueue :=
  NotifyPropertiesUpdated ts {[write.1 := write.2]} queue.

End StateManagers.

(* ===================================================================== *)
(** * Command definitions, dictionary and instances *)
(* ===================================================================== *)

Module Commands.
Import Values Failures ObjectSchemas.

(** [buffet/commands/command_definition.h]: the category a command
    belongs to and the schemas of its parameters and of its results. *)
Record CommandDefinition := MkCommandDefinition {
  category_ : string;
  parameters_ : ObjectSchema;
  results_ : ObjectSchema
}.

Definition GetCategory (d : CommandDefinition) : string := category_ d.
Definition GetParameters (d : CommandDefinition) : ObjectSchema :=
  parameters_ d.
Definition GetResults (d : CommandDefinition) : ObjectSchema := results_ d.

Definition CommandDefinition_equals (a b : CommandDefinition) : bool :=
  String.eqb (GetCategory a) (GetCategory b)
  && ObjectSchema_equals (GetParameters a) (GetParameters b)
  && ObjectSchema_equals (GetResults a) (GetResults b).

(** Modelled from the spec: the [CommandDictionary] of section 3, a
    mapping from the fully-qualified command name to its definition.
    The category of an entry is the one its definition carries. *)
Abbreviation CommandDictionary := (gmap string CommandDefinition).

Definition FindCommand (name : string) (dictionary : CommandDictionary)
  : option CommandDefinition :=
  dictionary !! name.

(** The entries of a dictionary outside a category. *)
Definition outside (category : string) (dictionary : CommandDictionary)
  : CommandDictionary :=
  filter (λ entry, GetCategory entry.2 ≠ category) dictionary.

(** Whether two dictionaries hold the same definitions under the same
    names; decides if a change notification is due. *)
Definition CommandDictionary_equals (a b : CommandDictionary) : bool :=
  bool_decide (dom a = dom b)
  && forallb (λ entry : string * CommandDefinition,
                match b !! entry.1 with
                | Some d => CommandDefinition_equals entry.2 d
                | None => false
                end) (map_to_list a).

(** Modelled from the spec: the lifecycle states of a command (section
    4.3); the last four are the outcomes. *)
Inductive State :=
| Queued | InProgress | Paused | Done | Cancelled | Aborted | Error.

#[export] Instance State_eq_dec : EqDecision State.
Proof. solve_decision. Defined.

(** Modelled from the spec: where a command was issued. *)
Inductive Origin := Local | Cloud.

Definition is_terminal (s : State) : bool :=
  match s with
  | Done | Cancelled | Aborted | Error => true
  | Queued | InProgress | Paused => false
  end.

Definition is_running (s : State) : bool :=
  match s with
  | InProgress | Paused => true
  | _ => false
  end.

(** Modelled from the spec: the [CommandInstance] of section 3; its class
    ([buffet/commands/command_instance.h]) is only included by the
    sources.  The instance keeps the definition it was validated
    against. *)
Record CommandInstance := MkCommandInstance {
  id : string;
  name : string;
  component : string;
  origin : Origin;
  parameters : ValueMap;
  progress : ValueMap;
  results : ValueMap;
  state : State;
  definition : CommandDefinition
}.

Definition SetID (new_id : string) (c : CommandInstance) : CommandInstance :=
  MkCommandInstance new_id (name c) (component c) (origin c) (parameters c)
                    (progress c) (results c) (state c) (definition c).

Definition with_state (s : State) (c : CommandInstance) : CommandInstance :=
  MkCommandInstance (id c) (name c) (component c) (origin c) (parameters c)
                    (progress c) (results c) s (definition c).

Definition with_progress (p : ValueMap) (c : CommandInstance)
  : CommandInstance :=
  MkCommandInstance (id c) (name c) (component c) (origin c) (parameters c)
                    p (results c) (state c) (definition c).

Definition with_results (r : ValueMap) (c : CommandInstance)
  : CommandInstance :=
  MkCommandInstance (id c) (name c) (component c) (origin c) (parameters c)
                    (progress c) r (state c) (definition c).

Definition invalid_state (operation : string) : Failure :=
  MkFailure InvalidStateError operation.

(** A verdict that rejects a call because of the state the command is
    in. *)
Definition is_invalid_state (verdict : option Failure) : Prop :=
  ∃ operation, verdict = Some (MkFailure InvalidStateError operation).

(** Each operation on an instance yields its verdict ([None] for ok) and
    the instance as the call leaves it. *)

(** Modelled from the spec: [SetProgress(json)], accepted only while
    in progress or paused; the progress map is free-form and replaces the
    previous one. *)
Definition SetProgress (json : ValueMap) (c : CommandInstance)
  : option Failure * CommandInstance :=
  if is_running (state c) then (None, with_progress json c)
  else (Some (invalid_state "SetProgress"), c).

(** Modelled from the spec: [Complete(resultsJson)], accepted only while
    in progress or paused; the results are validated against the result
    schema and, when they conform, stored as the command becomes done. *)
Definition Complete (resultsJson : ValueMap) (c : CommandInstance)
  : option Failure * CommandInstance :=
  if is_running (state c) then
    match ValidateObject "results" resultsJson (GetResults (definition c)) with
    | Some path => (Some (MkFailure ValidationError path), c)
    | None => (None, with_state Done (with_results resultsJson c))
    end
  else (Some (invalid_state "Complete"), c).

(** Modelled from the spec: [Abort(errorCode, errorMessage)], from any
    state that is not an outcome. *)
Definition Abort (errorCode errorMessage : string) (c : CommandInstance)
  : option Failure * CommandInstance :=
  if is_terminal (state c) then (Some (invalid_state "Abort"), c)
  else (None, with_state Aborted c).

(** Modelled from the spec: [Cancel()], from any state that is not an
    outcome. *)
Definition Cancel (c : CommandInstance)
  : option Failure * CommandInstance :=
  if is_terminal (state c) then (Some (invalid_state "Cancel"), c)
  else (None, with_state Cancelled c).

(** The calls an executing agent or an issuer can make on an instance. *)
Inductive Call :=
| CallSetProgress (json : ValueMap)
| CallComplete (resultsJson : ValueMap)
| CallAbort (errorCode errorMessage : string)
| CallCancel.

Definition perform (call : Call) (c : CommandInstance)
  : option Failure * CommandInstance :=
  match call with
  | CallSetProgress json => SetProgress json c
  | CallComplete resultsJson => Complete resultsJson c
  | CallAbort errorCode errorMessage => Abort errorCode errorMessage c
  | CallCancel => Cancel c
  end.

(** A sequence of calls: the verdict of each, and the final instance. *)
Fixpoint perform_all (calls : list Call) (c : CommandInstance)
  : list (option Failure) * CommandInstance :=
  match calls with
  | [] => ([], c)
  | call :: rest =>
      let '(verdict, c') := perform call c in
      let '(verdicts, c'') := perform_all rest c' in
      (verdict :: verdicts, c'')
  end.

Definition string_member (key : string) (members : ValueMap)
  : option string :=
  match find_member key members with
  | Some (VString s) => Some s
  | _ => None
  end.

(** Modelled from the spec: [FromPayload(json, dictionary)] of section
    4.3, the [CommandInstance::FromJson] the manager calls.  The payload
    is a document with the fields [name], [component] and [parameters];
    the name is looked up in the dictionary and the parameters are
    validated against the definition's parameter schema.  Only then is
    an instance built, queued, with no id yet. *)
Definition FromJson (json : Value) (dictionary : CommandDictionary)
  : Failure + CommandInstance :=
  match json with
  | VObject members =>
      match string_member "name" members with
      | None => inl (MkFailure ValidationError "name")
      | Some command_name =>
          match FindCommand command_name dictionary with
          | None => inl (MkFailure NotFoundError command_name)
          | Some command_definition =>
              let params :=
                match find_member "parameters" members with
                | Some (VObject ps) => Some ps
                | Some _ => None
                | None => Some []
                end in
              match params with
              | None => inl (MkFailure ValidationError "parameters")
              | Some ps =>
                  match ValidateObject "parameters" ps
                          (GetParameters command_definition) with
                  | Some path => inl (MkFailure ValidationError path)
                  | None =>
                      inr (MkCommandInstance
                             ""
                             command_name
                             (default "" (string_member "component" members))
                             (match string_member "origin" members with
                              | Some "cloud" => Cloud
                              | _ => Local
                              end)
                             ps [] [] Queued command_definition)
                  end
              end
          end
      end
  | _ => inl (MkFailure ValidationError "")
  end.

End Commands.

(* ===================================================================== *)
(** * The command manager *)
(* ===================================================================== *)

Module CommandManagers.
Import Values Failures ObjectSchemas Commands.

Definition kBaseCategory : string := "base".
Definition kTestCategory : string := "test".

(** What parsing one category's definition document yields: per command
    name, the schema of the parameters and the schema of the results. *)
Abbreviation ParsedCategory :=
  (list (string * (ObjectSchema * ObjectSchema))).

Section CommandManager.
(** The state of whoever observes the dictionary (the D-Bus adaptor of
    the [Manager], or a recorder in the proofs). *)
Context {Observer : Type}.

(** The specification does not fix the concrete syntax of a definition
    document, nor how a path is read; both are taken as given:
    [ObjectSchema.Parse] applied to every command of a document, with
    its [ParseError] and [TypeError] failures, and the document found
    at a path, if any. *)
Variable ParseDefinitions : Value → Failure + ParsedCategory.
Variable ReadDefinitions : string → option Value.

(** The registered observer is a [base::Closure] that reads the
    manager's dictionary when it runs; here the dictionary it reads is
    handed to it.  It yields [None] when it stops the process. *)
Definition Callback : Type :=
  CommandDictionary → Observer → option Observer.

(** Modelled from the spec: the [CommandManager] of section 4.4; it
    owns the dictionary and the live set of instances keyed by id, and
    holds the single registered observer. *)
Record CommandManager := MkCommandManager {
  dictionary_ : CommandDictionary;
  instances_ : gmap string CommandInstance;
  on_command_changed_ : option Callback
}.

(** An observer that never stops the process. *)
Definition never_stops (callback : Callback) : Prop :=
  ∀ dictionary observer, is_Some (callback dictionary observer).

Definition new_manager : CommandManager := MkCommandManager ∅ ∅ None.

Definition GetCommandDictionary (cm : CommandManager) : CommandDictionary :=
  dictionary_ cm.

Definition SetOnCommandDefChanged (callback : Callback)
           (cm : CommandManager) : CommandManager :=
  MkCommandManager (dictionary_ cm) (instances_ cm) (Some callback).

(** Modelled from the spec: [AddCommand(instance)] inserts into the live
    set keyed by id. *)
Definition AddCommand (instance : CommandInstance) (cm : CommandManager)
  : CommandManager :=
  MkCommandManager (dictionary_ cm)
                   (<[id instance := instance]> (instances_ cm))
                   (on_command_changed_ cm).

Definition FindCommandInstance (command_id : string) (cm : CommandManager)
  : option CommandInstance :=
  instances_ cm !! command_id.

(** Run the registered observer, if any, on the dictionary as it is. *)
Definition notify (cm : CommandManager) (observer : Observer)
  : option Observer :=
  match on_command_changed_ cm with
  | Some callback => callback (dictionary_ cm) observer
  | None => Some observer
  end.

(** The one place the dictionary is assigned: the new dictionary is
    swapped in whole, and the observer runs afterwards, when the
    dictionary actually changed. *)
Definition replace_dictionary (new_dictionary : CommandDictionary)
           (cm : CommandManager) (observer : Observer)
  : option (CommandManager * Observer) :=
  let cm' := MkCommandManager new_dictionary (instances_ cm)
                              (on_command_changed_ cm) in
  if CommandDictionary_equals (dictionary_ cm) new_dictionary
  then Some (cm', observer)
  else match notify cm' observer with
       | Some observer' => Some (cm', observer')
       | None => None
       end.

(** The first parsed command whose name is registered under another
    category. *)
Definition duplicate_name (category : string)
           (dictionary : CommandDictionary) (parsed : ParsedCategory)
  : option string :=
  fst <$> find (λ entry : string * (ObjectSchema * ObjectSchema),
                  match dictionary !! entry.1 with
                  | Some d => bool_decide (GetCategory d ≠ category)
                  | None => false
                  end) parsed.

Definition define (category : string)
           (entry : string * (ObjectSchema * ObjectSchema))
  : string * CommandDefinition :=
  (entry.1, MkCommandDefinition category entry.2.1 entry.2.2).

(** The dictionary with a category's entries replaced by the parsed
    ones. *)
Definition with_category (category : string) (parsed : ParsedCategory)
           (dictionary : CommandDictionary) : CommandDictionary :=
  list_to_map (define category <$> parsed) ∪ outside category dictionary.

(** Modelled from the spec: [LoadCommands(definitions, category)] of
    section 4.2.  It parses the category's definitions and replaces
    only that category's entries; a name registered under another
    category is a duplicate.  On any failure the previous contents are
    left intact.  The result is [None] when the observer stopped the
    process, otherwise the verdict with the manager and the observer
    as the call leaves them. *)
Definition LoadCommands (definitions : Value) (category : string)
           (cm : CommandManager) (observer : Observer)
  : option (option Failure * CommandManager * Observer) :=
  match ParseDefinitions definitions with
  | inl failure => Some (Some failure, cm, observer)
  | inr parsed =>
      match duplicate_name category (dictionary_ cm) parsed with
      | Some command_name =>
          Some (Some (MkFailure DuplicateNameError command_name),
                cm, observer)
      | None =>
          match replace_dictionary
                  (with_category category parsed (dictionary_ cm))
                  cm observer with
          | Some (cm', observer') => Some (None, cm', observer')
          | None => None
          end
      end
  end.

(** Modelled from the spec: [Startup(baseDefsPath, testDefsPath)] of
    section 4.4: the built-in category, then the override category
    when there is a document for it.  A failure of either load is
    reported and ends the start-up. *)
Definition Startup (baseDefsPath testDefsPath : string)
           (cm : CommandManager) (observer : Observer)
  : option (option Failure * CommandManager * Observer) :=
  match ReadDefinitions baseDefsPath with
  | None => Some (Some (MkFailure ParseError baseDefsPath), cm, observer)
  | Some base_definitions =>
      match LoadCommands base_definitions kBaseCategory cm observer with
      | None => None
      | Some (Some failure, cm1, observer1) =>
          Some (Some failure, cm1, observer1)
      | Some (None, cm1, observer1) =>
          match ReadDefinitions testDefsPath with
          | None => Some (None, cm1, observer1)
          | Some test_definitions =>
              LoadCommands test_definitions kTestCategory cm1 observer1
          end
      end
  end.

End CommandManager.

Arguments CommandManager : clear implicits.
Arguments Callback : clear implicits.

(** An observer that keeps every dictionary it is shown, oldest first. *)
Definition recording : Callback (list CommandDictionary) :=
  λ dictionary seen, Some (seen ++ [dictionary]).

End CommandManagers.

(* ===================================================================== *)
(** * [buffet/manager.cc] *)
(* ===================================================================== *)

Module Managers.
Import Errors Values Failures ObjectSchemas StateChanges StateManagers.
Import Commands CommandManagers.

(** Max of 100 state update events should be enough in the queue. *)
Definition kMaxStateChangeQueueSize : nat := 100.

(** Constants of the error and D-Bus libraries the file refers to. *)
Definition errors_dbus_kDomain : string := "dbus".
Definition DBUS_ERROR_INVALID_ARGS : string :=
  "org.freedesktop.DBus.Error.InvalidArgs".
Definition errors_json_kDomain : string := "json_parser".
Definition errors_json_kParseError : string := "json_parse_error".

(** [FROM_HERE] inside a method of [manager.cc]. *)
Definition FROM_HERE (function : string) (line : Z) : Location :=
  MkLocation function "buffet/manager.cc" line 0.

(** What a D-Bus method call ends with: [response->Return(value)] or
    [response->ReplyWithError(error)]. *)
Inductive Response (A : Type) :=
| Return (value : A)
| ReplyWithError (error : ErrorPtr Brillo).
Arguments Return {A} _.
Arguments ReplyWithError {A} _.

(** [response->ReplyWithError(FROM_HERE, domain, code, message)]. *)
Definition ReplyWithNewError {A} (location : Location)
           (domain code message : string) : Response A :=
  ReplyWithError (AddTo None location domain code message).

(** The exported properties of the D-Bus adaptor. *)
Record ManagerAdaptor := MkAdaptor {
  CommandDefs : string;
  Status : string;
  DeviceId : string
}.

Definition SetCommandDefs (json : string) (a : ManagerAdaptor)
  : ManagerAdaptor :=
  MkAdaptor json (Status a) (DeviceId a).

(** The members of [Manager] the modelled methods use.  The queue is
    owned here and shared with the state manager. *)
Record Manager := MkManager {
  command_manager_ : CommandManager ManagerAdaptor;
  state_change_queue_ : StateChangeQueue;
  state_manager_ : StateManager;
  dbus_adaptor_ : ManagerAdaptor
}.

(** The registration service behind [device_info_] is an external
    collaborator: a call to it is a visible step of the method, which
    resumes with the device id and the error slot the call hands back. *)
Inductive Interaction (A : Type) :=
| Respond (response : Response A)
| DeviceInfo_RegisterDevice
    (params : gmap string string)
    (resume : string * ErrorPtr Brillo → Interaction A).
Arguments Respond {A} _.
Arguments DeviceInfo_RegisterDevice {A} _ _.

(** [std::map::emplace_hint]: no effect on a key already present. *)
Definition emplace (key value : string) (m : gmap string string)
  : gmap string string :=
  match m !! key with
  | Some _ => m
  | None => <[key := value]> m
  end.

(** The loop of [RegisterDevice]: [None] when it returns early on a
    parameter that is not a string. *)
Fixpoint collect_str_params (params : VariantDictionary)
         (str_params : gmap string string) : option (gmap string string) :=
  match params with
  | [] => Some str_params
  | entry :: rest =>
      if negb (IsTypeCompatible_string entry.2) then None
      else collect_str_params rest
             (emplace entry.1 (Get_string entry.2) str_params)
  end.

(** An entry of the dictionary whose value is a string. *)
Definition is_string (entry : string * Any) : Prop :=
  IsTypeCompatible_string entry.2 = true.

Definition string_value_expected : Response string :=
  ReplyWithNewError (FROM_HERE "RegisterDevice" 122) errors_dbus_kDomain
                    DBUS_ERROR_INVALID_ARGS "String value expected".

(** [Manager::RegisterDevice(response, params)]. *)
Definition RegisterDevice (params : VariantDictionary) : Interaction string :=
  match collect_str_params params ∅ with
  | None => Respond string_value_expected
  | Some str_params =>
      DeviceInfo_RegisterDevice str_params
        (λ '(device_id, error),
           if negb (String.eqb device_id "") then Respond (Return device_id)
           else
             let error :=
               match error with
               | Some _ => error
               | None =>
                   AddTo error (FROM_HERE "RegisterDevice" 138)
                         kErrorDomainGCD "internal_error"
                         "device_id empty but error not set"
               end in
             Respond (ReplyWithError error))
  end.

(** The loop of [UpdateState]: the success flag, the state manager, the
    queue and the error slot after the properties visited so far. *)
Definition UpdateState_step (timestamp : Z)
           (acc : bool * StateManager * StateChangeQueue * ErrorPtr Brillo)
           (entry : string * Any)
  : bool * StateManager * StateChangeQueue * ErrorPtr Brillo :=
  let '(all_success, sm, queue, error) := acc in
  let '(ok, sm', queue', error') :=
    SetPropertyValue entry.1 entry.2 timestamp sm queue error in
  (* Remember that an error occurred but keep going and update the rest
     of the properties if possible. *)
  (if ok then all_success else false, sm', queue', error').

(** [Manager::UpdateState(response, property_set)]; [timestamp] is what
    [base::Time::Now()] returns at the call. *)
Definition UpdateState (timestamp : Z) (property_set : VariantDictionary)
           (m : Manager) : Response unit * Manager :=
  let '(all_success, sm, queue, error) :=
    foldl (UpdateState_step timestamp)
          (true, state_manager_ m, state_change_queue_ m, None)
          property_set in
  (if all_success then Return tt else ReplyWithError error,
   MkManager (command_manager_ m) queue sm (dbus_adaptor_ m)).

(** The largest [int] (32 bits). *)
Definition INT_MAX : Z := 2 ^ 31 - 1.

(** [++next_id] on an [int]: the successor below [INT_MAX].  At
    [INT_MAX] the language defines no behaviour for the increment; there
    the model has no result, and nothing is stated about such a call. *)
Definition increment (n : Z) : option Z :=
  if decide (n < INT_MAX) then Some (n + 1) else None.

(** [std::to_string(int)]: the decimal digits, with a minus sign for a
    negative number. *)
Definition to_string (n : Z) : string := pretty n.

(** The id the [k]-th successful [AddCommand] of a session gets when the
    counter stood at [next_id] before the session. *)
Definition nth_id (next_id : Z) (k : nat) : string :=
  to_string (next_id + Z.of_nat k).

Section WithLibraries.
(** Services of the base library and of the collaborators whose
    output format the specification leaves open. *)

(** [base::JSONReader::ReadAndReturnError]: the value, or the error
    message when the text does not parse. *)
Variable JSONReader_ReadAndReturnError : string → Value + string.
(** [base::JSONWriter::WriteWithOptions(..., OPTIONS_PRETTY_PRINT, ...)]. *)
Variable JSONWriter_Write : Value → string.
(** [CommandDictionary::GetCommandsAsJson(full, &error)]: the document
    that serialises the whole dictionary, null on error. *)
Variable GetCommandsAsJson : bool → CommandDictionary → option Value.
(** As in [CommandManagers]. *)
Variable ParseDefinitions : Value → Failure + ParsedCategory.
Variable ReadDefinitions : string → option Value.
(** The property declarations [StateManager::Startup] loads. *)
Variable StateDefinitions : gmap string Schema.

(** [Manager::AddCommand(response, json_command)].  [next_id] is the
    function's [static int]: it outlives the call and belongs to no
    manager, so it is threaded next to the manager.  The result is
    [None] where the increment of the counter has no defined
    behaviour. *)
Definition AddCommand (json_command : string) (next_id : Z) (m : Manager)
  : option (Response string * Z * Manager) :=
  match JSONReader_ReadAndReturnError json_command with
  | inr error_message =>
      Some (ReplyWithNewError (FROM_HERE "AddCommand" 179)
                              errors_json_kDomain errors_json_kParseError
                              error_message,
            next_id, m)
  | inl value =>
      match FromJson value (GetCommandDictionary (command_manager_ m)) with
      | inl failure =>
          Some (ReplyWithError (Raise failure "FromJson" None), next_id, m)
      | inr command_instance =>
          match increment next_id with
          | None => None
          | Some next_id =>
              let id := to_string next_id in
              let command_instance := SetID id command_instance in
              Some (Return id, next_id,
                    MkManager
                      (CommandManagers.AddCommand command_instance
                                                  (command_manager_ m))
                      (state_change_queue_ m) (state_manager_ m)
                      (dbus_adaptor_ m))
          end
      end
  end.

(** [Manager::OnCommandDefsChanged()]: serialise the complete
    dictionary and publish it; [CHECK(commands)] stops the process when
    there is no document. *)
Definition OnCommandDefsChanged : Callback ManagerAdaptor :=
  λ dictionary adaptor,
    match GetCommandsAsJson true dictionary with
    | None => None
    | Some commands =>
        Some (SetCommandDefs (JSONWriter_Write commands) adaptor)
    end.

(** [Manager::Start(...)], up to the state manager: the observer is
    registered before the command manager starts up, the queue gets
    its capacity, the state manager gets the queue.  Configuration,
    device registration and the D-Bus export lie outside the model.
    The method has no way to report a failure: a start-up of the
    command manager that fails, a hard failure by section 4.4, or an
    observer that stops the process leaves no manager ([None]). *)
Definition Start (test_definitions_path : string) : option Manager :=
  let command_manager :=
    SetOnCommandDefChanged OnCommandDefsChanged new_manager in
  match Startup ParseDefinitions ReadDefinitions
                "/etc/buffet" test_definitions_path
                command_manager (MkAdaptor "" "" "") with
  | Some (None, command_manager, adaptor) =>
      Some (MkManager command_manager
                      (new_queue kMaxStateChangeQueueSize)
                      (MkStateManager StateDefinitions ∅)
                      adaptor)
  | _ => None
  end.

(** A client's session: the payloads it submits one after the other,
    with the reply to each; [None] when some call of the session has no
    defined behaviour. *)
Fixpoint AddCommands (json_commands : list string) (next_id : Z)
         (m : Manager) : option (list (Response string) * Z * Manager) :=
  match json_commands with
  | [] => Some ([], next_id, m)
  | json_command :: rest =>
      match AddCommand json_command next_id m with
      | None => None
      | Some (reply, next_id', m') =>
          match AddCommands rest next_id' m' with
          | None => None
          | Some (replies, next_id'', m'') =>
              Some (reply :: replies, next_id'', m'')
          end
      end
  end.

End WithLibraries.

(** The ids handed out by a session, in order. *)
Definition returned_ids (replies : list (Response string)) : list string :=
  omap (λ r, match r with Return id => Some id | ReplyWithError _ => None end)
       replies.

End Managers.

(* ===================================================================== *)
(** * The scenarios of the specification *)
(* ===================================================================== *)

Module Scenarios.
Import Values Failures ObjectSchemas StateChanges StateManagers.
Import Commands CommandManagers Managers.

(** The parameter schema [{height: integer[0,100], _jumpType:
    enum["_withKick","_withoutKick"]}]. *)
Definition jump_parameters : ObjectSchema :=
  MkObjectSchema
    [("height", true, SInteger (Some 0) (Some 100) None);
     ("_jumpType", true, SString (Some ["_withKick"; "_withoutKick"]))]
    false.

(** A result schema requiring [distance: number]. *)
Definition jump_results : ObjectSchema :=
  MkObjectSchema [("distance", true, SNumber None None None)] false.

Definition jump_definition : CommandDefinition :=
  MkCommandDefinition kBaseCategory jump_parameters jump_results.

Definition jump_dictionary : CommandDictionary :=
  {["robot.jump" := jump_definition]}.

(** The payload [{height: 53, _jumpType: "_withKick"}] for [robot.jump]. *)
Definition jump_payload : Value :=
  VObject [("name", VString "robot.jump");
           ("component", VString "myComponent");
           ("parameters", VObject [("height", VInt 53);
                                   ("_jumpType", VString "_withKick")])].

(** The same command with a height outside the range. *)
Definition high_jump_payload : Value :=
  VObject [("name", VString "robot.jump");
           ("parameters", VObject [("height", VInt 530);
                                   ("_jumpType", VString "_withKick")])].

(** The instance the payload yields, once its execution has begun. *)
Definition jump_queued : CommandInstance :=
  MkCommandInstance "1" "robot.jump" "myComponent" Local
                    [("height", VInt 53); ("_jumpType", VString "_withKick")]
                    [] [] Queued jump_definition.

Definition jump_in_progress : CommandInstance :=
  with_state InProgress jump_queued.

Definition jump_done : CommandInstance :=
  with_state Done (with_results [("distance", VDouble 1.5)] jump_in_progress).

(** A reader that knows two texts: the two payloads above. *)
Definition toy_reader (text : string) : Value + string :=
  if String.eqb text "jump" then inl jump_payload
  else if String.eqb text "high jump" then inl high_jump_payload
  else inr "Line: 1, column: 1, Unexpected token.".

(** A manager whose dictionary knows [robot.jump], with nothing else in
    it, and one state property [height: integer[0,100]]. *)
Definition jump_manager : Manager :=
  MkManager (MkCommandManager jump_dictionary ∅ None)
            (new_queue kMaxStateChangeQueueSize)
            (MkStateManager
               {["height" := SInteger (Some 0) (Some 100) None;
                 "mode" := SString None]} ∅)
            (MkAdaptor "" "" "").

(** A definition document in a toy syntax: an object whose member names
    are the command names, each with empty parameter and result
    schemas. *)
Definition toy_parse (document : Value) : Failure + ParsedCategory :=
  match document with
  | VObject members =>
      inr ((λ member : string * Value,
              (member.1, (MkObjectSchema [] false, MkObjectSchema [] false)))
             <$> members)
  | _ => inl (MkFailure ParseError "definitions")
  end.

(** Two documents on disk: the built-in one and an override. *)
Definition toy_files (override : list (string * Value)) (path : string)
  : option Value :=
  if String.eqb path "/etc/buffet"
  then Some (VObject [("base.reboot", VObject []);
                      ("base.identify", VObject [])])
  else if String.eqb path "/tmp/test" then Some (VObject override)
  else None.

End Scenarios.

(* ===================================================================== *)
(** * Queries on error chains *)
(* ===================================================================== *)

Module ErrorQueries.
Import Errors.

(** [Error::HasError(domain, code)]: some link of the chain, at any
    depth, has this domain and this code. *)
Definition HasError {lib} (p : ErrorPtr lib) (domain code : string) : bool :=
  existsb (λ link, String.eqb (entry_domain link) domain
                   && String.eqb (entry_code link) code) (chain p).

(** A string without a NUL character. *)
Fixpoint nul_free (s : string) : bool :=
  match s with
  | EmptyString => true
  | String c rest => negb (Ascii.eqb c Ascii.zero) && nul_free rest
  end.

(** A link whose location names hold no NUL character. *)
Definition location_nul_free (link : Entry) : bool :=
  nul_free (snap_function_name (entry_location link))
  && nul_free (snap_file_name (entry_location link)).

End ErrorQueries.

(* ===================================================================== *)
(** * [buffet/manager.cc], the query methods *)
(* ===================================================================== *)

Module ManagerQueries.
Import Errors ErrorQueries Values Failures Commands CommandManagers Managers.

(** [Manager::CheckDeviceRegistered(response)], as a function of what
    [device_info_] hands back: the flag and the error slot left by
    [CheckRegistration(&error)], and the id [GetDeviceId()] returns.
    The condition reads [!registered && !error->HasError(...)]: the error
    is dereferenced only when the device is not registered.  With a null
    error the dereference has no defined behaviour; there the model has
    no result ([None]), and nothing is stated about such a call. *)
Definition CheckDeviceRegistered (registered : bool)
           (error : ErrorPtr Brillo) (device_id : string)
  : option (Response string) :=
  let answer := Some (Return (if registered then device_id else "")) in
  if registered then answer
  else
    match error with
    | None => None
    | Some _ =>
        (* If it fails due to any reason other than 'device not
           registered', treat it as a real error and report it to the
           caller. *)
        if negb (HasError error kErrorDomainGCD "device_not_registered")
        then Some (ReplyWithError error)
        else answer
    end.


Definition is_return {A} (reply : Response A) : bool :=
  match reply with
  | Return _ => true
  | ReplyWithError _ => false
  end.

(** Whether [AddCommand] would accept a text, given the reader and the
    dictionary: it parses and [FromJson] yields an instance. *)
Definition acceptable (reader : string → Value + string)
           (dictionary : CommandDictionary) (json_command : string) : bool :=
  match reader json_command with
  | inl value =>
      match FromJson value dictionary with
      | inr _ => true
      | inl _ => false
      end
  | inr _ => false
  end.

(** The number of acceptable texts of a session. *)
Definition acceptable_texts (reader : string → Value + string)
           (dictionary : CommandDictionary) (json_commands : list string)
  : nat :=
  length (filter (λ b, b = true)
                 (acceptable reader dictionary <$> json_commands)).

(** The manager with one more instance in the live set. *)
Definition with_instance (new_id : string) (c : CommandInstance)
           (m : Manager) : Manager :=
  MkManager
    (MkCommandManager (dictionary_ (command_manager_ m))
                      (<[new_id := c]> (instances_ (command_manager_ m)))
                      (on_command_changed_ (command_manager_ m)))
    (state_change_queue_ m) (state_manager_ m) (dbus_adaptor_ m).

Section GetCommand.
(** [CommandInstance::ToJson()], whose layout the specification leaves
    open, and [base::JSONWriter::WriteWithOptions]. *)
Variable ToJson : CommandInstance → Value.
Variable JSONWriter_Write : Value → string.

(** [Manager::GetCommand(response, id)]. *)
Definition GetCommand (command_id : string) (m : Manager)
  : Response string :=
  match FindCommandInstance command_id (command_manager_ m) with
  | None =>
      ReplyWithNewError (FROM_HERE "GetCommand" 201) kErrorDomainGCD
                        "unknown_command"
                        ("Can't find command with id: " +:+ command_id)
  | Some command => Return (JSONWriter_Write (ToJson command))
  end.
End GetCommand.

End ManagerQueries.
(* ===================================================================== *)
(** * Facts about error chains and their conversion *)
(* ===================================================================== *)

Module ErrorFacts.
Import Errors WeaveErrorConversion.

(** Induction over a chain: the inner error, when there is one, is a
    strict sub-term. *)
Lemma Error_chain_ind {lib} (P : Error lib → Prop) :
  (∀ l d c m, P (MkError l d c m None)) →
  (∀ l d c m i, P i → P (MkError l d c m (Some i))) →
  ∀ e, P e.
Proof.
  intros Hleaf Hwrap.
  fix IH 1. intros [l d c m [i|]].
  - apply Hwrap, IH.
  - apply Hleaf.
Qed.

Lemma chain_AddTo {lib} (p : ErrorPtr lib) loc d c m :
  chain (AddTo p loc d c m) = MkEntry (take_snapshot loc) d c m :: chain p.
Proof. by destruct p. Qed.

(** Converting into an [Error] slot puts the whole source chain, link by
    link, in front of whatever the slot held. *)
Lemma chain_ConvertError {src dst} pc (source : Error src) :
  ∀ destination : ErrorPtr dst,
    chain (ConvertError pc source destination)
    = (handed_over <$> chain_from source) ++ chain destination.
Proof.
  induction source as [l d c m|l d c m i IH] using Error_chain_ind;
    intros destination; cbn [ConvertError GetInnerError];
    rewrite chain_AddTo; cbn.
  - done.
  - by rewrite IH.
Qed.

Lemma recorded_AddTo (r : option AddToCalls) loc d c m :
  recorded (AddTo r loc d c m)
  = recorded r ++ [MkEntry (take_snapshot loc) d c m].
Proof. by destruct r. Qed.

(** The [AddTo] calls issued by a conversion are the links of the source
    chain from the innermost one outwards. *)
Lemma recorded_ConvertError {src} pc (source : Error src) :
  ∀ destination : option AddToCalls,
    recorded (ConvertError pc source destination)
    = recorded destination ++ reverse (handed_over <$> chain_from source).
Proof.
  induction source as [l d c m|l d c m i IH] using Error_chain_ind;
    intros destination; cbn [ConvertError GetInnerError];
    rewrite recorded_AddTo;
    cbn [chain_from GetInnerError fmap list_fmap]; rewrite reverse_cons.
  - done.
  - by rewrite IH, (assoc_L (++)).
Qed.

(** A chain of three errors, outermost first, and its conversion. *)
Example ConvertError_three_links :
  let link f d c m inner : Error Brillo :=
    MkError (MkSnapshot f "x.cc" 7) d c m inner in
  let source := link "f3" "d3" "c3" "m3"
                  (Some (link "f2" "d2" "c2" "m2"
                     (Some (link "f1" "d1" "c1" "m1" None)))) in
  entry_code <$> chain (ConvertError (Destination := Error Weave) 0 source None)
  = ["c3"; "c2"; "c1"]
  ∧ entry_code <$> recorded (ConvertError 0 source None) = ["c1"; "c2"; "c3"].
Proof. split; reflexivity. Qed.

(** C9. Converting a source error into an empty destination yields a
    chain of the same length whose i-th link has the domain, the code and
    the message (and the line number) of the i-th link of the source;
    the links are added to the destination from the innermost error
    outwards, which is what keeps the order. *)
Theorem ConvertError_preserves_chain {src dst} pc (source : Error src) :
  let converted : ErrorPtr dst := ConvertError pc source None in
  length (chain converted) = length (chain (Some source))
  ∧ (∀ i e, chain (Some source) !! i = Some e →
       ∃ e', chain converted !! i = Some e'
             ∧ entry_domain e' = entry_domain e
             ∧ entry_code e' = entry_code e
             ∧ entry_message e' = entry_message e
             ∧ snap_line_number (entry_location e')
               = snap_line_number (entry_location e))
  ∧ recorded (ConvertError pc source None)
    = reverse (handed_over <$> chain (Some source)).
Proof.
  cbv zeta. rewrite chain_ConvertError, recorded_ConvertError.
  cbn [chain recorded]. rewrite (right_id_L [] (++)), length_fmap.
  split_and!; [done| |done].
  intros i e Hi. exists (handed_over e). split; [|done].
  by rewrite list_lookup_fmap, Hi.
Qed.

End ErrorFacts.

(* ===================================================================== *)
(** * Facts about the D-Bus methods of the manager *)
(* ===================================================================== *)

Module RegisterDeviceFacts.
Import Errors Values Failures Managers.

Lemma collect_str_params_stops params :
  ∀ str_params,
    Exists (λ entry, ¬ is_string entry) params →
    collect_str_params params str_params = None.
Proof.
  induction params as [|entry rest IH]; intros str_params Hbad.
  - by apply Exists_nil in Hbad.
  - cbn [collect_str_params]. unfold is_string in *.
    destruct (IsTypeCompatible_string entry.2) eqn:Hentry; cbn; [|done].
    apply IH. apply Exists_cons in Hbad as [Hbad|Hbad]; [congruence|done].
Qed.

Lemma collect_str_params_completes params :
  ∀ str_params,
    Forall is_string params →
    ∃ collected,
      collect_str_params params str_params = Some collected
      ∧ ∀ key s, collected !! key = Some s →
                 str_params !! key = Some s
                 ∨ (key, AnyOf (VString s)) ∈ params.
Proof.
  induction params as [|[key v] rest IH]; intros str_params Hall.
  - exists str_params. split; [done|]. intros; by left.
  - apply Forall_cons in Hall as [Hv Hrest]. unfold is_string in Hv.
    cbn [collect_str_params]. cbn in Hv |- *. rewrite Hv. cbn.
    destruct (IH (emplace key (Get_string v) str_params) Hrest)
      as (collected & -> & Hfrom).
    exists collected. split; [done|]. intros key' s Hkey'.
    destruct (Hfrom key' s Hkey') as [Hin|Hin].
    + unfold emplace in Hin. destruct (str_params !! key) eqn:Hold.
      * by left.
      * destruct (decide (key = key')) as [->|Hne].
        -- rewrite lookup_insert_eq in Hin. injection Hin as <-. right.
           destruct v as [|[]]; try discriminate. cbn. apply list_elem_of_here.
        -- rewrite lookup_insert_ne in Hin by done. by left.
    + right. by apply list_elem_of_further.
Qed.

Lemma emplace_is_Some key value (m : gmap string string) key' :
  is_Some (m !! key') ∨ key' = key → is_Some (emplace key value m !! key').
Proof.
  unfold emplace. intros Hin. destruct (m !! key) as [old|] eqn:Hold.
  - destruct Hin as [Hin| ->]; [done|by eexists].
  - destruct (decide (key = key')) as [->|Hne].
    + rewrite lookup_insert_eq. by eexists.
    + rewrite lookup_insert_ne by done. by destruct Hin.
Qed.

Lemma collect_str_params_keys params :
  ∀ str_params collected,
    collect_str_params params str_params = Some collected →
    ∀ key, is_Some (str_params !! key) ∨ key ∈ params.*1 →
           is_Some (collected !! key).
Proof.
  induction params as [|[k v] rest IH]; intros str_params collected.
  - intros [= <-] key [Hin|Hin]; [done|]. by apply elem_of_nil in Hin.
  - cbn [collect_str_params]. destruct (negb _); [done|].
    intros Hrest key Hin. apply (IH _ _ Hrest). cbn in Hin |- *.
    destruct Hin as [Hin|[->|Hin]%elem_of_cons].
    + left. apply emplace_is_Some. by left.
    + left. apply emplace_is_Some. by right.
    + by right.
Qed.

(** C10. When some parameter of [RegisterDevice] is not a string the call
    ends with the invalid-arguments reply "String value expected" and
    never reaches the registration service; the service is reached only
    when every parameter is a string, and then with every key of the
    dictionary, each mapped to a string the dictionary holds for it. *)
Theorem RegisterDevice_requires_strings (params : VariantDictionary) :
  (Exists (λ entry, ¬ is_string entry) params →
   ∃ e, RegisterDevice params = Respond (ReplyWithError (Some e))
        ∧ GetDomain e = errors_dbus_kDomain
        ∧ GetCode e = DBUS_ERROR_INVALID_ARGS
        ∧ GetMessage e = "String value expected"
        ∧ GetInnerError e = None)
  ∧ (∀ str_params resume,
       RegisterDevice params = DeviceInfo_RegisterDevice str_params resume →
       Forall is_string params)
  ∧ (Forall is_string params →
     ∃ str_params resume,
       RegisterDevice params = DeviceInfo_RegisterDevice str_params resume
       ∧ (∀ key s, str_params !! key = Some s →
                   (key, AnyOf (VString s)) ∈ params)
       ∧ (∀ key, key ∈ params.*1 → is_Some (str_params !! key))).
Proof.
  split; [|split].
  - intros Hbad. unfold RegisterDevice.
    rewrite (collect_str_params_stops _ _ Hbad). by eexists.
  - intros str_params resume Hcall.
    destruct (decide (Forall is_string params)) as [|Hbad]; [done|].
    apply not_Forall_Exists in Hbad; [|intros x; unfold is_string; apply _].
    unfold RegisterDevice in Hcall.
    by rewrite (collect_str_params_stops _ _ Hbad) in Hcall.
  - intros Hall. unfold RegisterDevice.
    destruct (collect_str_params_completes params ∅ Hall)
      as (collected & Hcollected & Hfrom).
    rewrite Hcollected. do 2 eexists. split_and!; [done| |].
    + intros key s Hkey.
      destruct (Hfrom key s Hkey) as [Hempty|Hin]; [|done].
      by rewrite lookup_empty in Hempty.
    + intros key Hkey.
      apply (collect_str_params_keys _ _ _ Hcollected). by right.
Qed.

(** A dictionary with an integer among its values, and one with strings
    only. *)
Example RegisterDevice_rejects_integer :
  RegisterDevice [("name", AnyOf (VString "lamp")); ("ticket", AnyOf (VInt 5))]
  = Respond string_value_expected.
Proof. reflexivity. Qed.

Example RegisterDevice_accepts_strings :
  ∃ resume,
    RegisterDevice [("name", AnyOf (VString "lamp"));
                    ("ticket", AnyOf (VString "t5"))]
    = DeviceInfo_RegisterDevice
        (<["ticket" := "t5"]> (<["name" := "lamp"]> ∅)) resume.
Proof. eexists. reflexivity. Qed.

End RegisterDeviceFacts.

Module UpdateStateFacts.
Import Errors Values Failures ObjectSchemas StateChanges StateManagers.
Import Managers.

(** The check looks at the declarations only, which no update changes. *)
Lemma validated_declared sm sm' name v :
  declared sm = declared sm' → validated sm name v = validated sm' name v.
Proof. unfold validated. by intros ->. Qed.

Lemma accepted_declared sm sm' batch :
  declared sm = declared sm' → accepted sm batch = accepted sm' batch.
Proof.
  intros Hd. unfold accepted, rejected.
  induction batch as [|entry rest IH]; [done|].
  cbn. by rewrite (validated_declared sm sm' _ _ Hd), IH.
Qed.

Lemma rejected_declared sm sm' batch :
  declared sm = declared sm' → rejected sm batch = rejected sm' batch.
Proof.
  intros Hd. unfold accepted, rejected.
  induction batch as [|entry rest IH]; [done|].
  cbn. by rewrite (validated_declared sm sm' _ _ Hd), IH.
Qed.

Lemma batch_cons_rejected sm name v rest failure :
  validated sm name v = inl failure →
  rejected sm ((name, v) :: rest) = failure :: rejected sm rest
  ∧ accepted sm ((name, v) :: rest) = accepted sm rest.
Proof. intros Hv. unfold rejected, accepted. cbn. by rewrite Hv. Qed.

Lemma batch_cons_accepted sm name v rest new_value :
  validated sm name v = inr new_value →
  rejected sm ((name, v) :: rest) = rejected sm rest
  ∧ accepted sm ((name, v) :: rest) = (name, new_value) :: accepted sm rest.
Proof. intros Hv. unfold rejected, accepted. cbn. by rewrite Hv. Qed.

Lemma chain_Raise failure function (error : ErrorPtr Brillo) :
  function = "SetPropertyValue" →
  chain (Raise failure function error) = report failure :: chain error.
Proof. intros ->. by destruct error. Qed.

(** What the loop of [UpdateState] computes, from any point of the
    batch: every remaining property is visited; the flag is lost as soon
    as one fails; the accepted ones are committed and queued in order;
    each rejected one leaves a link on the error chain. *)
Lemma UpdateState_loop ts batch :
  ∀ all_success sm queue (error : ErrorPtr Brillo),
    ∃ error',
      foldl (UpdateState_step ts) (all_success, sm, queue, error) batch
      = (all_success && bool_decide (rejected sm batch = []),
         MkStateManager (declared sm)
                        (foldl (commit ts) (current sm) (accepted sm batch)),
         foldl (enqueue ts) queue (accepted sm batch),
         error')
      ∧ chain error' = reverse (report <$> rejected sm batch) ++ chain error.
Proof.
  induction batch as [|[name v] rest IH]; intros all_success sm queue error.
  - exists error. cbn. rewrite andb_true_r. by destruct sm.
  - cbn [foldl UpdateState_step]. unfold SetPropertyValue. cbn [fst snd].
    destruct (validated sm name v) as [failure|new_value] eqn:Hv.
    + destruct (batch_cons_rejected sm name v rest failure Hv) as [-> ->].
      destruct (IH false sm queue (Raise failure "SetPropertyValue" error))
        as (error' & -> & Hchain).
      exists error'. split.
      * rewrite (bool_decide_eq_false_2 (_ :: _ = [])) by done.
        by rewrite andb_false_r.
      * rewrite Hchain, chain_Raise by done.
        cbn [fmap list_fmap]. rewrite reverse_cons, <- (assoc_L (++)). done.
    + destruct (batch_cons_accepted sm name v rest new_value Hv) as [-> ->].
      set (sm' := MkStateManager _ _).
      destruct (IH all_success sm'
                   (NotifyPropertiesUpdated ts {[name := new_value]} queue)
                   error) as (error' & -> & Hchain).
      assert (declared sm' = declared sm) as Hd by done.
      rewrite (rejected_declared sm' sm _ Hd) in Hchain |- *.
      rewrite (accepted_declared sm' sm _ Hd).
      exists error'. split; [|done].
      destruct all_success; done.
Qed.

Lemma rejected_elem sm batch name v failure :
  (name, v) ∈ batch → validated sm name v = inl failure →
  failure ∈ rejected sm batch.
Proof.
  intros Hin Hv. unfold rejected. apply list_elem_of_omap.
  exists (name, v). split; [done|]. cbn. by rewrite Hv.
Qed.

Lemma accepted_elem sm batch name v new_value :
  (name, v) ∈ batch → validated sm name v = inr new_value →
  (name, new_value) ∈ accepted sm batch.
Proof.
  intros Hin Hv. unfold accepted. apply list_elem_of_omap.
  exists (name, v). split; [done|]. cbn. by rewrite Hv.
Qed.

Lemma accepted_names_sublist sm batch :
  sublist (accepted sm batch).*1 batch.*1.
Proof.
  unfold accepted. induction batch as [|[name v] rest IH]; [done|].
  cbn. destruct (validated sm name v); cbn.
  - by apply sublist_cons.
  - by apply sublist_skip.
Qed.

(** Committing writes to distinct properties leaves each of them with
    the value written. *)
Lemma commit_all_lookup ts (writes : list (string * Value)) :
  ∀ values name new_value,
    NoDup writes.*1 → (name, new_value) ∈ writes →
    foldl (commit ts) values writes !! name = Some (MkStateValue new_value ts).
Proof.
  assert (∀ (ws : list (string * Value)) values name,
            name ∉ ws.*1 →
            foldl (commit ts) values ws !! name = values !! name) as Hkeep.
  { induction ws as [|[k w] ws IH]; intros values name Hout; [done|].
    cbn in Hout |- *. apply not_elem_of_cons in Hout as [Hne Hout].
    rewrite IH by done. unfold commit. cbn. by rewrite lookup_insert_ne. }
  induction writes as [|[k w] writes IH]; intros values name new_value Hnd Hin.
  - by apply elem_of_nil in Hin.
  - cbn in Hnd. apply NoDup_cons in Hnd as [Hfresh Hnd].
    apply elem_of_cons in Hin as [Heq|Hin]; cbn.
    + injection Heq as -> ->. rewrite Hkeep by done.
      unfold commit. cbn. by rewrite lookup_insert_eq.
    + by apply IH.
Qed.

(** C1. A batch update visits every property whatever happens to the
    others: the accepted properties are committed (current value and
    queued change record) exactly as if the rejected ones were not in
    the batch, every rejected property leaves its own link on the error
    the caller receives, latest failure outermost, and the reply is a
    success only when no property was rejected. *)
Theorem UpdateState_partial_failure ts (property_set : VariantDictionary)
        (m : Manager) :
  let sm := state_manager_ m in
  let reply := (UpdateState ts property_set m).1 in
  let m' := (UpdateState ts property_set m).2 in
  current (state_manager_ m')
    = foldl (commit ts) (current sm) (accepted sm property_set)
  ∧ state_change_queue_ m'
    = foldl (enqueue ts) (state_change_queue_ m) (accepted sm property_set)
  ∧ declared (state_manager_ m') = declared sm
  ∧ command_manager_ m' = command_manager_ m
  ∧ dbus_adaptor_ m' = dbus_adaptor_ m
  ∧ (reply = Return tt ↔ rejected sm property_set = [])
  ∧ (∃ error,
       chain error = reverse (report <$> rejected sm property_set)
       ∧ (rejected sm property_set ≠ [] → reply = ReplyWithError error))
  ∧ (∀ name v failure,
       (name, v) ∈ property_set → validated sm name v = inl failure →
       ∃ error, reply = ReplyWithError error ∧ report failure ∈ chain error)
  ∧ (NoDup property_set.*1 →
     ∀ name v new_value,
       (name, v) ∈ property_set → validated sm name v = inr new_value →
       current (state_manager_ m') !! name
       = Some (MkStateValue new_value ts)).
Proof.
  cbv zeta. unfold UpdateState.
  destruct (UpdateState_loop ts property_set true (state_manager_ m)
              (state_change_queue_ m) None) as (error & -> & Hchain).
  cbn [chain] in Hchain. rewrite (right_id_L [] (++)) in Hchain.
  cbn [fst snd state_manager_ state_change_queue_ command_manager_
       dbus_adaptor_ current declared andb].
  assert (rejected (state_manager_ m) property_set ≠ [] →
          (if bool_decide (rejected (state_manager_ m) property_set = [])
           then Return tt else ReplyWithError error)
          = ReplyWithError error) as Hfail.
  { intros Hne. by rewrite bool_decide_eq_false_2. }
  repeat split.
  - case_bool_decide; [done|discriminate].
  - intros ->. by rewrite bool_decide_eq_true_2.
  - exists error. split; [done|]. apply Hfail.
  - intros name v failure Hin Hv. exists error.
    pose proof (rejected_elem _ _ _ _ _ Hin Hv) as Hrej.
    split.
    + apply Hfail. intros Hnil. rewrite Hnil in Hrej.
      by apply elem_of_nil in Hrej.
    + rewrite Hchain, elem_of_reverse. by apply list_elem_of_fmap_2.
  - intros Hnd name v new_value Hin Hv.
    apply commit_all_lookup.
    + eapply sublist_NoDup; [done|apply accepted_names_sublist].
    + by eapply accepted_elem.
Qed.

(** A batch with a string for the integer property [height] and a valid
    [mode]: the reply is the validation error for [height], [mode] is
    committed and queued, [height] keeps having no value. *)
Example UpdateState_one_bad_one_good :
  let batch := [("height", AnyOf (VString "oops"));
                ("mode", AnyOf (VString "eco"))] in
  let result := UpdateState 7 batch Scenarios.jump_manager in
  (∃ error, result.1 = ReplyWithError error
            ∧ chain error
              = [report (MkFailure ValidationError "height")])
  ∧ current (state_manager_ result.2) !! "mode"
    = Some (MkStateValue (VString "eco") 7)
  ∧ current (state_manager_ result.2) !! "height" = None
  ∧ changed_properties <$> state_changes (state_change_queue_ result.2)
    = [{["mode" := VString "eco"]}].
Proof. split_and!; [eexists; split|..]; vm_compute; reflexivity. Qed.

End UpdateStateFacts.

(* ===================================================================== *)
(** * Facts about command instances *)
(* ===================================================================== *)

Module CommandInstanceFacts.
Import Values Failures ObjectSchemas Commands Scenarios.

Lemma terminal_not_running s : is_terminal s = true → is_running s = false.
Proof. by destruct s. Qed.

(** One call on a command that reached an outcome. *)
Lemma perform_terminal call c :
  is_terminal (state c) = true →
  is_invalid_state (perform call c).1 ∧ (perform call c).2 = c.
Proof.
  intros Hterm. pose proof (terminal_not_running _ Hterm) as Hrun.
  destruct call; cbn [perform]; unfold SetProgress, Complete, Abort, Cancel;
    rewrite ?Hterm, ?Hrun; (split; [by eexists|done]).
Qed.

Lemma perform_all_terminal calls c :
  is_terminal (state c) = true →
  (perform_all calls c).2 = c
  ∧ Forall is_invalid_state (perform_all calls c).1
  ∧ length (perform_all calls c).1 = length calls.
Proof.
  intros Hterm. induction calls as [|call rest IH]; [done|].
  cbn [perform_all].
  destruct (perform_terminal call c Hterm) as [Hverdict Hsame].
  destruct (perform call c) as [verdict c1]. cbn in Hverdict, Hsame. subst c1.
  destruct (perform_all rest c) as [verdicts c2]. cbn in IH |- *.
  destruct IH as (-> & Hall & Hlen).
  repeat split; [by constructor|by rewrite Hlen].
Qed.

(** The successful transitions that end a command's life. *)
Lemma perform_reaches_outcome call c :
  (perform call c).1 = None →
  is_terminal (state (perform call c).2) = true
  ∨ (∃ json, call = CallSetProgress json).
Proof.
  destruct call; cbn [perform]; unfold SetProgress, Complete, Abort, Cancel.
  - intros _. right. by eexists.
  - destruct (is_running (state c)); [|done].
    destruct (ValidateObject _ _ _); [done|]. by left.
  - destruct (is_terminal (state c)); [done|]. by left.
  - destruct (is_terminal (state c)); [done|]. by left.
Qed.

(** C3. Once a command has reached an outcome (done, aborted, cancelled
    or error) every later call, whatever it is and however many follow,
    is rejected with an invalid-state error and leaves the whole
    instance, state and payloads, as it was. *)
Theorem terminal_states_are_sticky (c : CommandInstance) (calls : list Call) :
  is_terminal (state c) = true →
  (perform_all calls c).2 = c
  ∧ Forall is_invalid_state (perform_all calls c).1
  ∧ length (perform_all calls c).1 = length calls.
Proof. apply perform_all_terminal. Qed.

Lemma terminal_states_are_sticky_witness :
  (perform_all [CallSetProgress [("progress", VInt 10)];
                CallComplete [("distance", VDouble 2)];
                CallAbort "foo" "bar"; CallCancel] jump_done).2 = jump_done
  ∧ Forall is_invalid_state
           (perform_all [CallSetProgress [("progress", VInt 10)];
                         CallComplete [("distance", VDouble 2)];
                         CallAbort "foo" "bar"; CallCancel] jump_done).1
  ∧ length (perform_all [CallSetProgress [("progress", VInt 10)];
                         CallComplete [("distance", VDouble 2)];
                         CallAbort "foo" "bar"; CallCancel] jump_done).1
    = 4%nat.
Proof.
  exact (terminal_states_are_sticky jump_done
           [CallSetProgress [("progress", VInt 10)];
            CallComplete [("distance", VDouble 2)];
            CallAbort "foo" "bar"; CallCancel] eq_refl).
Defined.

(** Every way into an outcome through the calls above, followed by any
    further calls. *)
Lemma outcome_then_calls call c calls :
  (perform call c).1 = None →
  (∀ json, call ≠ CallSetProgress json) →
  (perform_all calls (perform call c).2).2 = (perform call c).2
  ∧ Forall is_invalid_state (perform_all calls (perform call c).2).1.
Proof.
  intros Hok Hnot.
  destruct (perform_reaches_outcome call c Hok) as [Hterm|[json ->]].
  - destruct (perform_all_terminal calls _ Hterm) as (? & ? & ?). done.
  - by destruct (Hnot json).
Qed.

(** C5. [Complete] succeeds exactly when the command is in progress or
    paused and the results conform to the result schema; it then makes
    the command done with these results, which no later call changes.
    When the results do not conform the verdict is a validation error
    naming the offending path and the instance is as before; so it is
    for the specification's example, an empty result against a schema
    requiring [distance]. *)
Theorem Complete_validates_results :
  (∀ (resultsJson : ValueMap) (c : CommandInstance),
     let verdict := (Complete resultsJson c).1 in
     let c' := (Complete resultsJson c).2 in
     let conforms :=
       ValidateObject "results" resultsJson (GetResults (definition c)) in
     (verdict = None ↔ is_running (state c) = true ∧ conforms = None)
     ∧ (verdict = None →
        state c' = Done ∧ results c' = resultsJson
        ∧ c' = with_state Done (with_results resultsJson c)
        ∧ ∀ calls, results (perform_all calls c').2 = resultsJson
                   ∧ state (perform_all calls c').2 = Done)
     ∧ (∀ path, is_running (state c) = true → conforms = Some path →
                verdict = Some (MkFailure ValidationError path) ∧ c' = c)
     ∧ (is_running (state c) = false → is_invalid_state verdict ∧ c' = c))
  ∧ Complete [] jump_in_progress
    = (Some (MkFailure ValidationError "results.distance"), jump_in_progress)
  ∧ state jump_in_progress = InProgress.
Proof.
  split; [|split; reflexivity].
  intros resultsJson c. cbv zeta. unfold Complete.
  destruct (is_running (state c)) eqn:Hrun.
  - destruct (ValidateObject _ _ _) as [path|] eqn:Hvalid; cbn [fst snd].
    + split_and!.
      * split; [done|by intros [_ ?]].
      * done.
      * by intros path' _ [= ->].
      * done.
    + split_and!.
      * done.
      * intros _. split_and!; try done.
        intros calls.
        destruct (perform_all_terminal calls
                    (with_state Done (with_results resultsJson c)) eq_refl)
          as (-> & _). done.
      * done.
      * done.
  - cbn [fst snd]. split_and!.
    + split; [done|by intros [? _]].
    + done.
    + done.
    + intros _. split; [by eexists|done].
Qed.

End CommandInstanceFacts.

(* ===================================================================== *)
(** * Facts about [Manager::AddCommand] *)
(* ===================================================================== *)

Module AddCommandFacts.
Import Errors Values Failures ObjectSchemas Commands CommandManagers.
Import Managers ManagerQueries Scenarios.

(** What [FromJson] guarantees of the instance it builds. *)
Lemma FromJson_instance value dictionary c :
  FromJson value dictionary = inr c →
  state c = Queued
  ∧ id c = ""
  ∧ dictionary !! name c = Some (definition c)
  ∧ ValidateObject "parameters" (parameters c)
                   (GetParameters (definition c)) = None.
Proof.
  unfold FromJson, FindCommand. intros H.
  repeat case_match; simplify_eq; cbn; done.
Qed.

(** A payload that names an unknown command or whose parameters do not
    conform yields no instance. *)
Lemma FromJson_rejects members dictionary :
  (∀ command_name, string_member "name" members = Some command_name →
     match dictionary !! command_name with
     | None => True
     | Some d =>
         ∃ ps path, find_member "parameters" members = Some (VObject ps)
                    ∧ ValidateObject "parameters" ps (GetParameters d)
                      = Some path
     end) →
  ∃ failure, FromJson (VObject members) dictionary = inl failure.
Proof.
  unfold FromJson, FindCommand. intros H.
  destruct (string_member "name" members) as [command_name|]; [|by eexists].
  specialize (H command_name eq_refl).
  destruct (dictionary !! command_name) as [d|]; [|by eexists].
  destruct H as (ps & path & -> & ->). by eexists.
Qed.

(** A payload that names a known command and whose parameters conform
    yields an instance with these parameters. *)
Lemma FromJson_accepts members dictionary command_name d ps :
  string_member "name" members = Some command_name →
  dictionary !! command_name = Some d →
  find_member "parameters" members = Some (VObject ps) →
  ValidateObject "parameters" ps (GetParameters d) = None →
  ∃ c, FromJson (VObject members) dictionary = inr c
       ∧ name c = command_name ∧ parameters c = ps ∧ definition c = d.
Proof.
  unfold FromJson, FindCommand. intros -> -> -> ->. by eexists.
Qed.

(** A text that is not acceptable gets an error reply and changes
    nothing. *)
Lemma AddCommand_rejected reader json_command next_id m :
  acceptable reader (GetCommandDictionary (command_manager_ m)) json_command
    = false →
  ∃ error, AddCommand reader json_command next_id m
           = Some (ReplyWithError error, next_id, m).
Proof.
  unfold acceptable, AddCommand.
  destruct (reader json_command) as [value|message]; [|by eexists].
  destruct (FromJson value _); [by eexists|done].
Qed.

(** An acceptable text, with the counter below [INT_MAX], gets the next
    id; the instance [FromJson] built enters the live set under it. *)
Lemma AddCommand_accepted reader json_command next_id m :
  acceptable reader (GetCommandDictionary (command_manager_ m)) json_command
    = true →
  ∃ value c,
    reader json_command = inl value
    ∧ FromJson value (GetCommandDictionary (command_manager_ m)) = inr c
    ∧ AddCommand reader json_command next_id m
      = if decide (next_id < INT_MAX)
        then Some (Return (to_string (next_id + 1)), next_id + 1,
                   with_instance (to_string (next_id + 1))
                                 (SetID (to_string (next_id + 1)) c) m)
        else None.
Proof.
  unfold acceptable, AddCommand, increment.
  destruct (reader json_command) as [value|message]; [|done].
  destruct (FromJson value _) as [failure|c] eqn:Hfrom; [done|]. intros _.
  exists value, c. split_and!; [done|done|].
  unfold with_instance, CommandManagers.AddCommand. by case_decide.
Qed.

Lemma acceptable_cases reader dictionary json_command :
  acceptable reader dictionary json_command = true
  ↔ ∃ value c, reader json_command = inl value
               ∧ FromJson value dictionary = inr c.
Proof.
  unfold acceptable. destruct (reader json_command) as [value|message].
  - destruct (FromJson value dictionary) as [failure|c] eqn:Hfrom.
    + split; [done|]. intros (v & c & [= <-] & Hc). congruence.
    + split; [|done]. intros _. by exists value, c.
  - split; [done|]. by intros (v & c & [=] & _).
Qed.

(** C4. Adding a command is all-or-nothing.  A text that does not parse,
    or a payload [FromJson] rejects (in particular one whose parameters
    fail validation), gets an error reply, and with an error reply the
    id counter and the whole manager, live set included, are as before.
    A payload that parses and validates is accepted: the reply is the
    next id, and the live set gains, under that id, the instance built
    from the payload, queued.  A successful reply occurs in no other
    way.  (The counter is taken below [INT_MAX], where its increment is
    defined.) *)
Theorem AddCommand_all_or_nothing
        (reader : string → Value + string) (json_command : string)
        (next_id : Z) (m : Manager) :
  let outcome := AddCommand reader json_command next_id m in
  let dictionary := GetCommandDictionary (command_manager_ m) in
  (∀ error next_id' m',
     outcome = Some (ReplyWithError error, next_id', m') →
     next_id' = next_id ∧ m' = m)
  ∧ ((∃ message, reader json_command = inr message)
     ∨ (∃ value failure, reader json_command = inl value
                         ∧ FromJson value dictionary = inl failure) →
     ∃ error, outcome = Some (ReplyWithError error, next_id, m))
  ∧ (∀ members command_name d ps path,
       reader json_command = inl (VObject members) →
       string_member "name" members = Some command_name →
       dictionary !! command_name = Some d →
       find_member "parameters" members = Some (VObject ps) →
       ValidateObject "parameters" ps (GetParameters d) = Some path →
       outcome
       = Some (ReplyWithError
                 (Raise (MkFailure ValidationError path) "FromJson" None),
               next_id, m))
  ∧ (∀ value c,
       reader json_command = inl value →
       FromJson value dictionary = inr c →
       next_id < INT_MAX →
       let new_id := to_string (next_id + 1) in
       outcome = Some (Return new_id, next_id + 1,
                       with_instance new_id (SetID new_id c) m)
       ∧ instances_ (command_manager_ (with_instance new_id (SetID new_id c) m))
           !! new_id = Some (SetID new_id c)
       ∧ state (SetID new_id c) = Queued
       ∧ id (SetID new_id c) = new_id)
  ∧ (∀ members command_name d ps,
       reader json_command = inl (VObject members) →
       string_member "name" members = Some command_name →
       dictionary !! command_name = Some d →
       find_member "parameters" members = Some (VObject ps) →
       ValidateObject "parameters" ps (GetParameters d) = None →
       next_id < INT_MAX →
       ∃ c m', outcome = Some (Return (to_string (next_id + 1)),
                               next_id + 1, m')
               ∧ instances_ (command_manager_ m') !! to_string (next_id + 1)
                 = Some c
               ∧ state c = Queued ∧ id c = to_string (next_id + 1)
               ∧ name c = command_name ∧ parameters c = ps)
  ∧ (∀ new_id next_id' m',
       outcome = Some (Return new_id, next_id', m') →
       ∃ value c,
         reader json_command = inl value
         ∧ FromJson value dictionary = inr c
         ∧ state c = Queued
         ∧ ValidateObject "parameters" (parameters c)
                          (GetParameters (definition c)) = None
         ∧ dictionary !! name c = Some (definition c)
         ∧ new_id = to_string next_id'
         ∧ next_id' = next_id + 1
         ∧ instances_ (command_manager_ m')
           = <[new_id := SetID new_id c]> (instances_ (command_manager_ m))
         ∧ state (SetID new_id c) = Queued
         ∧ dictionary_ (command_manager_ m') = dictionary
         ∧ state_manager_ m' = state_manager_ m
         ∧ state_change_queue_ m' = state_change_queue_ m
         ∧ dbus_adaptor_ m' = dbus_adaptor_ m).
Proof.
  cbv zeta.
  destruct (acceptable reader (GetCommandDictionary (command_manager_ m))
                       json_command) eqn:Hacc.
  - destruct (AddCommand_accepted reader json_command next_id m Hacc)
      as (value & c & Hread & Hfrom & ->).
    destruct (FromJson_instance _ _ _ Hfrom) as (Hq & _ & Hdef & Hvalid).
    assert (state (SetID (to_string (next_id + 1)) c) = Queued) as Hq'
      by (by destruct c).
    split_and!.
    + intros error n' m'. by case_decide.
    + intros [[message Hbad]|(value' & failure & Hv & Hrej)]; congruence.
    + intros members command_name d ps path Hv Hname Hd Hps Hbad.
      rewrite Hread in Hv. injection Hv as ->.
      unfold FromJson, FindCommand, GetCommandDictionary in *.
      by rewrite Hname, Hd, Hps, Hbad in Hfrom.
    + intros value' c' Hv Hc Hlt. rewrite decide_True by done.
      assert (c' = c) as -> by congruence.
      split_and!; [done| |done|by destruct c].
      unfold with_instance. cbn. by rewrite lookup_insert_eq.
    + intros members command_name d ps Hv Hname Hd Hps Hok Hlt.
      rewrite decide_True by done.
      destruct (FromJson_accepts members _ command_name d ps Hname Hd Hps Hok)
        as (c' & Hc' & Hn & Hp & _).
      assert (c' = c) as -> by congruence.
      eexists _, _. split_and!; [reflexivity| | | | |].
      * unfold with_instance. cbn. by rewrite lookup_insert_eq.
      * done.
      * by destruct c.
      * by destruct c.
      * by destruct c.
    + intros new_id n' m'. case_decide; [|done]. intros [= <- <- <-].
      exists value, c. by split_and!.
  - destruct (AddCommand_rejected reader json_command next_id m Hacc)
      as (error & Heq).
    assert (∀ value c, reader json_command = inl value →
              FromJson value (GetCommandDictionary (command_manager_ m))
              = inr c → False) as Hnever.
    { intros value c Hv Hc.
      assert (acceptable reader (GetCommandDictionary (command_manager_ m))
                         json_command = true) as Hyes
        by (apply acceptable_cases; eauto).
      congruence. }
    split_and!.
    + rewrite Heq. by intros error' n' m' [= _ <- <-].
    + intros _. by eexists.
    + intros members command_name d ps path Hv Hname Hd Hps Hbad.
      unfold AddCommand. rewrite Hv.
      unfold FromJson, FindCommand, GetCommandDictionary in *.
      by rewrite Hname, Hd, Hps, Hbad.
    + intros value c Hv Hc. by destruct (Hnever value c).
    + intros members command_name d ps Hv Hname Hd Hps Hok.
      destruct (FromJson_accepts members _ command_name d ps Hname Hd Hps Hok)
        as (c & Hc & _).
      by destruct (Hnever _ c Hv).
    + by rewrite Heq.
Qed.

(** The scenario's payload on a manager that knows [robot.jump], and the
    same command with a height outside the range. *)
Example AddCommand_jump :
  match AddCommand toy_reader "jump" 0 jump_manager with
  | Some (reply, next_id', m') =>
      reply = Return "1" ∧ next_id' = 1
      ∧ state <$> instances_ (command_manager_ m') !! "1" = Some Queued
  | None => False
  end.
Proof. vm_compute. by split_and!. Qed.

Example AddCommand_high_jump :
  AddCommand toy_reader "high jump" 0 jump_manager
  = Some (ReplyWithError
            (Raise (MkFailure ValidationError "parameters.height")
                   "FromJson" None),
          0, jump_manager).
Proof. reflexivity. Qed.

(** ** The id counter *)

Lemma nth_id_shift next_id k : nth_id (next_id + 1) k = nth_id next_id (S k).
Proof. unfold nth_id. f_equal. lia. Qed.

Lemma returned_ids_Return new_id replies :
  returned_ids (Return new_id :: replies) = new_id :: returned_ids replies.
Proof. done. Qed.

Lemma returned_ids_ReplyWithError error replies :
  returned_ids (ReplyWithError error :: replies) = returned_ids replies.
Proof. done. Qed.

Lemma returned_ids_length (replies : list (Response string)) :
  length (returned_ids replies)
  = length (filter (λ b, b = true) (is_return <$> replies)).
Proof.
  induction replies as [|[new_id|error] rest IH]; [done|..].
  - rewrite returned_ids_Return. cbn [fmap list_fmap is_return].
    rewrite filter_cons_True by done. cbn. by rewrite IH.
  - rewrite returned_ids_ReplyWithError. cbn [fmap list_fmap is_return].
    by rewrite filter_cons_False.
Qed.

(** What a session with defined behaviour does: the replies succeed at
    the acceptable texts, the ids are the successive counter values, the
    counter advances by the number of ids, and only the live set
    changes. *)
Lemma AddCommands_session reader json_commands :
  ∀ next_id m replies next_id' m',
    AddCommands reader json_commands next_id m = Some (replies, next_id', m') →
    let dictionary := GetCommandDictionary (command_manager_ m) in
    let ids := returned_ids replies in
    is_return <$> replies = acceptable reader dictionary <$> json_commands
    ∧ ids = nth_id next_id <$> seq 1 (length ids)
    ∧ next_id' = next_id + Z.of_nat (length ids)
    ∧ GetCommandDictionary (command_manager_ m') = dictionary
    ∧ state_manager_ m' = state_manager_ m
    ∧ state_change_queue_ m' = state_change_queue_ m
    ∧ dbus_adaptor_ m' = dbus_adaptor_ m.
Proof.
  induction json_commands as [|json_command rest IH];
    intros next_id m replies next_id' m' Hsession; cbn [AddCommands] in Hsession.
  - injection Hsession as <- <- <-. cbn. split_and!; try done. lia.
  - destruct (AddCommand reader json_command next_id m)
      as [[[reply n1] m1]|] eqn:Hone; [|done].
    destruct (AddCommands reader rest n1 m1) as [[[replies1 n2] m2]|]
      eqn:Hrest; [|done].
    injection Hsession as <- <- <-.
    specialize (IH n1 m1 replies1 n2 m2 Hrest). cbv zeta in IH |- *.
    destruct IH as (Hreplies & Hids & Hn2 & Hdict & Hsm & Hq & Ha).
    destruct (acceptable reader (GetCommandDictionary (command_manager_ m))
                         json_command) eqn:Hacc.
    + destruct (AddCommand_accepted reader json_command next_id m Hacc)
        as (value & c & _ & _ & Heq).
      rewrite Heq in Hone. case_decide; [|done].
      injection Hone as <- <- <-.
      rewrite returned_ids_Return. cbn [length seq fmap list_fmap is_return].
      rewrite Hacc. cbn in Hdict, Hreplies, Hsm, Hq, Ha.
      split_and!; try done.
      * f_equal. exact Hreplies.
      * f_equal.
        rewrite Hids at 1. rewrite <- (fmap_S_seq 1), <- list_fmap_compose.
        apply list_fmap_ext. intros _ k _. apply nth_id_shift.
      * lia.
    + destruct (AddCommand_rejected reader json_command next_id m Hacc)
        as (error & Heq).
      rewrite Heq in Hone. injection Hone as <- <- <-.
      rewrite returned_ids_ReplyWithError. cbn [fmap list_fmap is_return].
      rewrite Hacc. split_and!; try done. by f_equal.
Qed.

(** A session has defined behaviour when the counter can take all its
    acceptable texts without passing [INT_MAX]. *)
Lemma AddCommands_defined reader json_commands :
  ∀ next_id m,
    next_id + Z.of_nat (acceptable_texts
                          reader (GetCommandDictionary (command_manager_ m))
                          json_commands) ≤ INT_MAX →
    is_Some (AddCommands reader json_commands next_id m).
Proof.
  unfold acceptable_texts.
  induction json_commands as [|json_command rest IH]; intros next_id m Hroom.
  - by eexists.
  - cbn [AddCommands fmap list_fmap] in Hroom |- *.
    destruct (acceptable reader (GetCommandDictionary (command_manager_ m))
                         json_command) eqn:Hacc.
    + rewrite filter_cons_True in Hroom by done. cbn [length] in Hroom.
      destruct (AddCommand_accepted reader json_command next_id m Hacc)
        as (value & c & _ & _ & ->).
      rewrite decide_True by lia.
      destruct (IH (next_id + 1)
                   (with_instance (to_string (next_id + 1))
                                  (SetID (to_string (next_id + 1)) c) m))
        as [[[replies n2] m2] ->];
        [unfold GetCommandDictionary in *; cbn; lia|].
      by eexists.
    + rewrite filter_cons_False in Hroom by done.
      destruct (AddCommand_rejected reader json_command next_id m Hacc)
        as (error & ->).
      destruct (IH next_id m Hroom) as [[[replies n2] m2] ->]. by eexists.
Qed.




End AddCommandFacts.

(* ===================================================================== *)
(** * Facts about the command dictionary and its manager *)
(* ===================================================================== *)

Module DictionaryFacts.
Import Values Failures ObjectSchemas Commands CommandManagers.
Import Managers Scenarios.

Lemma kBase_not_kTest : kBaseCategory ≠ kTestCategory.
Proof. done. Qed.

(** The entries parsed for a category carry that category. *)
Lemma lookup_defined category (parsed : ParsedCategory) name d :
  (list_to_map (define category <$> parsed) : CommandDictionary) !! name
    = Some d →
  GetCategory d = category ∧ name ∈ parsed.*1.
Proof.
  intros Hlook. apply elem_of_list_to_map_2 in Hlook.
  apply list_elem_of_fmap in Hlook as ([n [p r]] & [= -> ->] & Hin).
  split; [done|]. apply list_elem_of_fmap. by exists (n, (p, r)).
Qed.

Lemma defined_is_Some category (parsed : ParsedCategory) name :
  name ∈ parsed.*1 →
  ∃ d, (list_to_map (define category <$> parsed) : CommandDictionary) !! name
       = Some d ∧ GetCategory d = category.
Proof.
  intros Hin.
  destruct ((list_to_map (define category <$> parsed) : CommandDictionary)
              !! name) as [d|] eqn:Hlook.
  - exists d. split; [done|]. by apply lookup_defined in Hlook as [? _].
  - apply not_elem_of_list_to_map in Hlook.
    rewrite <- list_fmap_compose in Hlook. by destruct Hlook.
Qed.

Lemma outside_lookup category (dictionary : CommandDictionary) name d :
  outside category dictionary !! name = Some d ↔
  dictionary !! name = Some d ∧ GetCategory d ≠ category.
Proof. unfold outside. by rewrite map_lookup_filter_Some. Qed.

Lemma outside_others category (dictionary : CommandDictionary) :
  (∀ name d, dictionary !! name = Some d → GetCategory d ≠ category) →
  outside category dictionary = dictionary.
Proof.
  intros Hother. apply map_eq. intros name. apply option_eq. intros d.
  rewrite outside_lookup. split; [by intros [? _]|].
  intros Hd. split; [done|by eapply Hother].
Qed.

Lemma outside_empty category : outside category ∅ = ∅.
Proof. apply outside_others. intros name d. by rewrite lookup_empty. Qed.

(** No duplicate is found exactly when every parsed name that is
    registered is registered under the category being loaded. *)
Lemma duplicate_name_None category dictionary (parsed : ParsedCategory) :
  duplicate_name category dictionary parsed = None ↔
  ∀ name d, name ∈ parsed.*1 → dictionary !! name = Some d →
            GetCategory d = category.
Proof.
  unfold duplicate_name. induction parsed as [|[n s] rest IH]; cbn.
  - split; [|done]. intros _ name d Hin. by apply elem_of_nil in Hin.
  - destruct (dictionary !! n) as [d0|] eqn:Hn;
      [case_bool_decide as Hcat|]; cbn.
    + split; [done|]. intros Hall. destruct Hcat. eapply Hall; [left|done].
    + rewrite IH. split.
      * intros Hall name d [->|Hin]%elem_of_cons Hd; [|by eapply Hall].
        rewrite Hn in Hd. injection Hd as <-.
        by destruct (decide (GetCategory d0 = category)).
      * intros Hall name d Hin. apply Hall. by right.
    + rewrite IH. split.
      * intros Hall name d [->|Hin]%elem_of_cons Hd; [congruence|].
        by eapply Hall.
      * intros Hall name d Hin. apply Hall. by right.
Qed.

Lemma duplicate_name_Some category dictionary (parsed : ParsedCategory) dup :
  duplicate_name category dictionary parsed = Some dup →
  dup ∈ parsed.*1
  ∧ ∃ d, dictionary !! dup = Some d ∧ GetCategory d ≠ category.
Proof.
  unfold duplicate_name. induction parsed as [|[n s] rest IH]; cbn; [done|].
  destruct (dictionary !! n) as [d0|] eqn:Hn;
    [case_bool_decide as Hcat|]; cbn.
  - intros [= <-]. split; [left|by exists d0].
  - intros Hrest. destruct (IH Hrest) as [Hin Hd]. split; [by right|done].
  - intros Hrest. destruct (IH Hrest) as [Hin Hd]. split; [by right|done].
Qed.

Section Loading.
Context {Observer : Type}.
Variable parse : Value → Failure + ParsedCategory.
Variable read : string → option Value.

Lemma replace_dictionary_total new_dictionary
      (cm : CommandManager Observer) observer callback :
  on_command_changed_ cm = Some callback → never_stops callback →
  ∃ observer',
    replace_dictionary new_dictionary cm observer
    = Some (MkCommandManager new_dictionary (instances_ cm)
                             (Some callback), observer').
Proof.
  intros Hcb Htotal. unfold replace_dictionary, notify. cbn. rewrite Hcb.
  destruct (CommandDictionary_equals _ _); [by eexists|].
  destruct (Htotal new_dictionary observer) as [observer' ->]. by eexists.
Qed.

Lemma LoadCommands_loads definitions parsed category
      (cm : CommandManager Observer) observer callback :
  on_command_changed_ cm = Some callback → never_stops callback →
  parse definitions = inr parsed →
  duplicate_name category (dictionary_ cm) parsed = None →
  ∃ observer',
    LoadCommands parse definitions category cm observer
    = Some (None,
            MkCommandManager
              (with_category category parsed (dictionary_ cm))
              (instances_ cm) (Some callback),
            observer').
Proof.
  intros Hcb Htotal Hparse Hdup. unfold LoadCommands.
  rewrite Hparse, Hdup.
  destruct (replace_dictionary_total
              (with_category category parsed (dictionary_ cm))
              cm observer callback Hcb Htotal) as [observer' ->].
  by eexists.
Qed.

Lemma LoadCommands_duplicate definitions parsed category
      (cm : CommandManager Observer) observer dup :
  parse definitions = inr parsed →
  duplicate_name category (dictionary_ cm) parsed = Some dup →
  LoadCommands parse definitions category cm observer
  = Some (Some (MkFailure DuplicateNameError dup), cm, observer).
Proof. intros Hparse Hdup. unfold LoadCommands. by rewrite Hparse, Hdup. Qed.

(** Loading a name that another category registers fails and changes
    nothing. *)
Lemma LoadCommands_rejects_duplicates definitions parsed category
      (cm : CommandManager Observer) observer name d :
  parse definitions = inr parsed →
  name ∈ parsed.*1 → dictionary_ cm !! name = Some d →
  GetCategory d ≠ category →
  ∃ dup,
    LoadCommands parse definitions category cm observer
    = Some (Some (MkFailure DuplicateNameError dup), cm, observer)
    ∧ dup ∈ parsed.*1.
Proof.
  intros Hparse Hin Hd Hother.
  destruct (duplicate_name category (dictionary_ cm) parsed) as [dup|]
    eqn:Hdup.
  - exists dup. split; [by apply (LoadCommands_duplicate _ parsed)|].
    by apply duplicate_name_Some in Hdup as [? _].
  - rewrite duplicate_name_None in Hdup. by destruct (Hother (Hdup _ _ Hin Hd)).
Qed.

(** The dictionary right after the built-in category was loaded into an
    empty manager. *)
Lemma base_only_lookup (parsed : ParsedCategory) name d :
  with_category kBaseCategory parsed ∅ !! name = Some d →
  GetCategory d = kBaseCategory ∧ name ∈ parsed.*1.
Proof.
  unfold with_category. rewrite outside_empty, (right_id_L ∅ (∪)).
  apply lookup_defined.
Qed.

(** [Startup] on an empty manager: the built-in category, then the
    override. *)
Lemma Startup_on_empty_manager
        (callback : Callback Observer) (observer : Observer)
        (basePath testPath : string)
        (base_document : Value) (base : ParsedCategory) :
  never_stops callback →
  read basePath = Some base_document →
  parse base_document = inr base →
  let started :=
    Startup parse read basePath testPath
            (SetOnCommandDefChanged callback new_manager) observer in
  let base_only := with_category kBaseCategory base ∅ in
  (read testPath = None →
   ∃ cm observer', started = Some (None, cm, observer')
                   ∧ dictionary_ cm = base_only)
  ∧ (∀ test_document test,
       read testPath = Some test_document →
       parse test_document = inr test →
       ((∀ name, name ∈ test.*1 → name ∉ base.*1) →
        ∃ cm observer',
          started = Some (None, cm, observer')
          ∧ dictionary_ cm
            = list_to_map (define kTestCategory <$> test) ∪ base_only
          ∧ (∀ name, name ∈ base.*1 →
               GetCategory <$> dictionary_ cm !! name = Some kBaseCategory)
          ∧ (∀ name, name ∈ test.*1 →
               GetCategory <$> dictionary_ cm !! name = Some kTestCategory))
       ∧ (∀ name, name ∈ test.*1 → name ∈ base.*1 →
            ∃ dup cm observer',
              started = Some (Some (MkFailure DuplicateNameError dup),
                              cm, observer')
              ∧ dup ∈ test.*1 ∧ dup ∈ base.*1
              ∧ dictionary_ cm = base_only)).
Proof.
  intros Htotal Hread Hparse. cbv zeta. unfold Startup. rewrite Hread.
  destruct (LoadCommands_loads base_document base kBaseCategory
              (SetOnCommandDefChanged callback new_manager) observer
              callback eq_refl Htotal Hparse) as [observer1 ->].
  { apply duplicate_name_None. intros name d _. cbn.
    by rewrite lookup_empty. }
  cbn [dictionary_ instances_ SetOnCommandDefChanged new_manager].
  set (base_only := with_category kBaseCategory base ∅).
  split.
  - intros ->. by do 2 eexists.
  - intros test_document test -> Htest. split.
    + intros Hnew.
      destruct (LoadCommands_loads test_document test kTestCategory
                  (MkCommandManager base_only ∅ (Some callback)) observer1
                  callback eq_refl Htotal Htest) as [observer2 ->].
      { apply duplicate_name_None. intros name d Hin Hd. cbn in Hd.
        apply base_only_lookup in Hd as [_ Hbase]. by destruct (Hnew name). }
      cbn [dictionary_ instances_].
      assert (outside kTestCategory base_only = base_only) as Hout.
      { apply outside_others. intros name d Hd.
        apply base_only_lookup in Hd as [-> _]. apply kBase_not_kTest. }
      unfold with_category at 1. rewrite Hout.
      eexists (MkCommandManager _ _ _), _.
      split_and!; [reflexivity|done|..]; cbn [dictionary_].
      * intros name Hin.
        destruct (defined_is_Some kBaseCategory base name Hin)
          as (d & Hd & Hcat).
        rewrite lookup_union_r.
        -- unfold base_only, with_category.
           rewrite outside_empty, (right_id_L ∅ (∪)), Hd. cbn. by rewrite Hcat.
        -- apply not_elem_of_list_to_map. rewrite <- list_fmap_compose.
           intros Hin'. by apply (Hnew name Hin').
      * intros name Hin.
        destruct (defined_is_Some kTestCategory test name Hin)
          as (d & Hd & Hcat).
        erewrite lookup_union_Some_l by done. cbn. by rewrite Hcat.
    + intros name Hin_test Hin_base.
      destruct (duplicate_name kTestCategory base_only test) as [dup|]
        eqn:Hdup.
      * rewrite (LoadCommands_duplicate
                   test_document test kTestCategory
                   (MkCommandManager base_only ∅ (Some callback))
                   observer1 dup Htest Hdup).
        apply duplicate_name_Some in Hdup as (Hdup_test & d & Hd & _).
        apply base_only_lookup in Hd as [_ Hdup_base].
        exists dup. by do 2 eexists.
      * exfalso. rewrite duplicate_name_None in Hdup.
        destruct (defined_is_Some kBaseCategory base name Hin_base)
          as (d & Hd & Hcat).
        apply kBase_not_kTest. rewrite <- Hcat.
        apply (Hdup name d Hin_test). unfold base_only, with_category.
        by rewrite outside_empty, (right_id_L ∅ (∪)).
Qed.


(** C7. Started on an empty manager, [Startup] loads the built-in
    category and then, when there is an override document, the override
    category.  With override names that are all new both categories
    end up registered, each name under its own category.  With an
    override name that the built-in category already registers, it is
    the override load that fails, with a duplicate-name error naming
    such a command, and the dictionary holds the built-in category
    only.  In any manager, loading a name that is registered under
    another category fails with a duplicate-name error and leaves the
    manager as it was. *)
Theorem Startup_base_then_override
        (callback : Callback Observer) (observer : Observer)
        (basePath testPath : string)
        (base_document : Value) (base : ParsedCategory) :
  never_stops callback →
  read basePath = Some base_document →
  parse base_document = inr base →
  let started :=
    Startup parse read basePath testPath
            (SetOnCommandDefChanged callback new_manager) observer in
  let base_only := with_category kBaseCategory base ∅ in
  (read testPath = None →
   ∃ cm observer', started = Some (None, cm, observer')
                   ∧ dictionary_ cm = base_only)
  ∧ (∀ test_document test,
       read testPath = Some test_document →
       parse test_document = inr test →
       ((∀ name, name ∈ test.*1 → name ∉ base.*1) →
        ∃ cm observer',
          started = Some (None, cm, observer')
          ∧ dictionary_ cm
            = list_to_map (define kTestCategory <$> test) ∪ base_only
          ∧ (∀ name, name ∈ base.*1 →
               GetCategory <$> dictionary_ cm !! name = Some kBaseCategory)
          ∧ (∀ name, name ∈ test.*1 →
               GetCategory <$> dictionary_ cm !! name = Some kTestCategory))
       ∧ (∀ name, name ∈ test.*1 → name ∈ base.*1 →
            ∃ dup cm observer',
              started = Some (Some (MkFailure DuplicateNameError dup),
                              cm, observer')
              ∧ dup ∈ test.*1 ∧ dup ∈ base.*1
              ∧ dictionary_ cm = base_only))
  ∧ (∀ (cm : CommandManager Observer) observer' definitions parsed
       category name d,
       parse definitions = inr parsed →
       name ∈ parsed.*1 → dictionary_ cm !! name = Some d →
       GetCategory d ≠ category →
       ∃ dup,
         LoadCommands parse definitions category cm observer'
         = Some (Some (MkFailure DuplicateNameError dup), cm, observer')
         ∧ dup ∈ parsed.*1).
Proof.
  intros Htotal Hread Hparse. cbv zeta.
  destruct (Startup_on_empty_manager callback observer basePath testPath
              base_document base Htotal Hread Hparse) as [Habsent Hgiven].
  split_and!; [done|done|].
  intros cm observer' definitions parsed category name d.
  apply LoadCommands_rejects_duplicates.
Qed.

End Loading.

(** The built-in document registers [base.reboot] and [base.identify];
    an override that adds [test.ping] extends the dictionary. *)
Lemma Startup_base_then_override_witness :
  ∃ cm seen,
    Startup toy_parse (toy_files [("test.ping", VObject [])])
            "/etc/buffet" "/tmp/test"
            (SetOnCommandDefChanged recording new_manager) []
    = Some (None, cm, seen)
    ∧ GetCategory <$> dictionary_ cm !! "base.reboot" = Some kBaseCategory
    ∧ GetCategory <$> dictionary_ cm !! "test.ping" = Some kTestCategory.
Proof.
  destruct (Startup_base_then_override
              toy_parse (toy_files [("test.ping", VObject [])])
              recording [] "/etc/buffet" "/tmp/test"
              (VObject [("base.reboot", VObject []);
                        ("base.identify", VObject [])])
              [("base.reboot", (MkObjectSchema [] false, MkObjectSchema [] false));
               ("base.identify", (MkObjectSchema [] false, MkObjectSchema [] false))]
              ltac:(intros dictionary seen; by eexists) eq_refl eq_refl)
    as (_ & Hoverride & _).
  destruct (Hoverride (VObject [("test.ping", VObject [])])
                      [("test.ping",
                        (MkObjectSchema [] false, MkObjectSchema [] false))]
                      eq_refl eq_refl) as [Hnew _].
  destruct Hnew as (cm & seen & Hstarted & _ & Hbase & Htest).
  { intros name Hname. apply list_elem_of_singleton in Hname. subst name.
    apply (bool_decide_unpack _). vm_compute. exact I. }
  exists cm, seen. split_and!.
  - exact Hstarted.
  - apply Hbase. apply (bool_decide_unpack _). vm_compute. exact I.
  - apply Htest. apply (bool_decide_unpack _). vm_compute. exact I.
Defined.

(** An override that defines [base.reboot] again: the start-up fails on
    it, after the built-in category was registered and announced. *)
Example Startup_duplicate_override :
  match Startup toy_parse (toy_files [("test.ping", VObject []);
                                      ("base.reboot", VObject [])])
                "/etc/buffet" "/tmp/test"
                (SetOnCommandDefChanged recording new_manager) [] with
  | Some (verdict, cm, seen) =>
      verdict = Some (MkFailure DuplicateNameError "base.reboot")
      ∧ GetCategory <$> dictionary_ cm !! "base.reboot" = Some kBaseCategory
      ∧ dictionary_ cm !! "test.ping" = None
      ∧ seen = [dictionary_ cm]
  | None => False
  end.
Proof. vm_compute. split_and!; reflexivity. Qed.

(** What the manager's observer publishes is the serialisation of the
    whole dictionary it is shown; it stops the process when there is no
    document. *)
Lemma OnCommandDefsChanged_publishes writer serialise dictionary adaptor :
  match serialise true dictionary with
  | Some commands =>
      OnCommandDefsChanged writer serialise dictionary adaptor
      = Some (SetCommandDefs (writer commands) adaptor)
  | None => OnCommandDefsChanged writer serialise dictionary adaptor = None
  end.
Proof. unfold OnCommandDefsChanged. by destruct (serialise true dictionary). Qed.

End DictionaryFacts.

(* ===================================================================== *)
(** * Facts about the queue of state changes *)
(* ===================================================================== *)

Module QueueFacts.
Import Values StateChanges StateManagers Managers.

Lemma merge_into_last_length older records :
  length (merge_into_last older records) = length records.
Proof.
  induction records as [|r [|r' rest] IH]; [done|done|].
  cbn [merge_into_last length] in *. by rewrite IH.
Qed.

Lemma coalesce_length records :
  length (coalesce records) = pred (length records).
Proof. destruct records; [done|]. apply merge_into_last_length. Qed.

(** A queue of positive capacity that is within its bound stays within
    it when a record is appended. *)
Lemma NotifyPropertiesUpdated_bounded ts changes q :
  (1 ≤ max_queue_size q)%nat →
  (length (state_changes q) ≤ max_queue_size q)%nat →
  (length (state_changes (NotifyPropertiesUpdated ts changes q))
   ≤ max_queue_size q)%nat.
Proof.
  intros Hpos Hbound. unfold NotifyPropertiesUpdated. cbn [state_changes].
  rewrite length_app. cbn [length].
  destruct (Nat.leb_spec (max_queue_size q) (length (state_changes q))).
  - rewrite coalesce_length. lia.
  - lia.
Qed.

Lemma run_bounded capacity ops :
  (1 ≤ capacity)%nat →
  max_queue_size (run capacity ops).1 = capacity
  ∧ (length (state_changes (run capacity ops).1) ≤ capacity)%nat.
Proof.
  intros Hpos. unfold run.
  induction ops as [|op ops IH] using rev_ind.
  - cbn. split; [done|lia].
  - rewrite foldl_app. cbn [foldl]. destruct IH as [Hmax Hlen].
    destruct op as [ts changes|]; cbn [run_op fst snd].
    + split; [done|].
      rewrite <- Hmax at 2. apply NotifyPropertiesUpdated_bounded; lia.
    + cbn. split; [done|lia].
Qed.

(** The specification's scenario: capacity 2, changes [{a:1}], [{b:2}], [{a:3}];
    the drained records merge to [{a:3, b:2}]. *)
Example capacity_two_scenario :
  let ops := [Notify 1 {["a" := VInt 1]}; Notify 2 {["b" := VInt 2]};
              Notify 3 {["a" := VInt 3]}] in
  let drained := (GetAllChanges true (run 2 ops).1).1 in
  length drained = 2%nat
  ∧ merged_state drained = {["a" := VInt 3; "b" := VInt 2]}.
Proof. split; vm_compute; reflexivity. Qed.

(** With a capacity of 3 the oldest record and the predecessor of the new
    one are not neighbours: after [{a:1}], [{a:2}], [{b:5}], the change
    [{c:7}] moves [a:1] behind [a:2], and the merge of the drained
    records has the older value of [a]. *)
Example capacity_three_reorders :
  let ops := [Notify 1 {["a" := VInt 1]}; Notify 2 {["a" := VInt 2]};
              Notify 3 {["b" := VInt 5]}; Notify 4 {["c" := VInt 7]}] in
  let drained := (GetAllChanges true (run 3 ops).1).1 in
  merged_state drained !! "a" = Some (VInt 1)
  ∧ last_written "a" (run 3 ops).2 = Some (VInt 2).
Proof. split; vm_compute; reflexivity. Qed.

(** [Manager::Start] gives the queue its capacity of 100, empty. *)
Lemma Start_queue_capacity writer serialise parse read declarations path m :
  Start writer serialise parse read declarations path = Some m →
  state_change_queue_ m = new_queue 100.
Proof.
  unfold Start. intros Hstart.
  repeat case_match; simplify_eq. done.
Qed.

End QueueFacts.

(* ===================================================================== *)
(** * Further facts about the conversion of error chains *)
(* ===================================================================== *)

Module ConversionFacts.
Import Errors WeaveErrorConversion ErrorQueries ErrorFacts.

Lemma c_str_idempotent s : c_str (c_str s) = c_str s.
Proof.
  induction s as [|c rest IH]; [done|]. cbn.
  destruct (Ascii.eqb c Ascii.zero) eqn:Hc; [done|]. cbn. by rewrite Hc, IH.
Qed.

Lemma c_str_fixed s : c_str s = s ↔ nul_free s = true.
Proof.
  induction s as [|c rest IH]; [done|]. cbn.
  destruct (Ascii.eqb c Ascii.zero) eqn:Hc; cbn.
  - split; discriminate.
  - rewrite <- IH. split; [by intros [= ->]|by intros ->].
Qed.

Lemma handed_over_idempotent link :
  handed_over (handed_over link) = handed_over link.
Proof. unfold handed_over. cbn. by rewrite !c_str_idempotent. Qed.

Lemma handed_over_fixed link :
  handed_over link = link ↔ location_nul_free link = true.
Proof.
  destruct link as [[function file line] domain code message].
  unfold handed_over, location_nul_free. cbn.
  rewrite andb_true_iff, <- !c_str_fixed. split.
  - by intros [= -> ->].
  - by intros [-> ->].
Qed.

(** Into an [Error] slot a conversion always leaves an error. *)
Lemma ConvertError_not_null {src dst} pc (source : Error src)
      (destination : ErrorPtr dst) :
  ∃ outer, ConvertError pc source destination = Some outer.
Proof. destruct source as [l d c m [i|]]; cbn; by eexists. Qed.

Lemma chain_ConvertError_empty {src dst} pc (source : Error src) :
  chain (ConvertError pc source None : ErrorPtr dst)
  = handed_over <$> chain (Some source).
Proof. rewrite chain_ConvertError. cbn [chain]. apply (right_id_L [] (++)). Qed.

Lemma chain_Some_cons {lib} (e : Error lib) :
  chain (Some e) = entry_of e :: chain (GetInnerError e).
Proof. by destruct e as [l d c m [i|]]. Qed.

Lemma HasError_handed_over (links : list Entry) domain code :
  existsb (λ link, String.eqb (entry_domain link) domain
                   && String.eqb (entry_code link) code)
          (handed_over <$> links)
  = existsb (λ link, String.eqb (entry_domain link) domain
                     && String.eqb (entry_code link) code) links.
Proof. induction links as [|link rest IH]; [done|]. cbn. by rewrite IH. Qed.

(** X1. A conversion never loses what the destination already holds: the
    result is a non-null error whose outermost link is the source's
    outermost one, followed by the rest of the source chain and then by
    the destination's earlier chain, untouched. *)
Theorem ConvertError_keeps_destination {src dst} pc (source : Error src)
        (destination : ErrorPtr dst) :
  (∃ outer, ConvertError pc source destination = Some outer
            ∧ entry_of outer = handed_over (entry_of source))
  ∧ chain (ConvertError pc source destination)
    = (handed_over <$> chain (Some source)) ++ chain destination
  ∧ length (chain (ConvertError pc source destination))
    = (length (chain (Some source)) + length (chain destination))%nat.
Proof.
  pose proof (chain_ConvertError (dst := dst) pc source destination) as Hchain.
  change (chain_from source) with (chain (Some source)) in Hchain.
  split_and!.
  - destruct (ConvertError_not_null pc source destination) as [outer Houter].
    exists outer. split; [done|].
    rewrite Houter, chain_Some_cons in Hchain.
    rewrite (chain_Some_cons source) in Hchain.
    apply (f_equal head) in Hchain. cbn in Hchain.
    by apply (inj Some) in Hchain.
  - done.
  - by rewrite Hchain, length_app, length_fmap.
Qed.

(** X2. A conversion neither adds nor hides a domain and code pair:
    [HasError] finds a pair in the result exactly when it finds it in
    the source or in what the destination held. *)
Theorem ConvertError_preserves_HasError {src dst} pc (source : Error src)
        (destination : ErrorPtr dst) domain code :
  HasError (ConvertError pc source destination) domain code
  = HasError (Some source) domain code || HasError destination domain code.
Proof.
  unfold HasError. rewrite chain_ConvertError. cbn [chain].
  by rewrite existsb_app, HasError_handed_over.
Qed.

(** X3. Converting a chain to the other library and back yields the chain
    a single conversion yields: domains, codes, messages and line
    numbers of the original, location names read as C strings. *)
Theorem ConvertError_round_trip pc pc' (source : Error Brillo) :
  ∃ there : Error Weave,
    ConvertError pc source None = Some there
    ∧ chain (ConvertError pc' there None : ErrorPtr Brillo)
      = handed_over <$> chain (Some source)
    ∧ chain (ConvertError pc' there None : ErrorPtr Brillo)
      = chain (Some there).
Proof.
  destruct (ConvertError_not_null (dst := Weave) pc source None)
    as [there Hthere].
  exists there. split; [done|].
  pose proof (chain_ConvertError_empty (dst := Weave) pc source) as Hchain.
  rewrite Hthere in Hchain.
  rewrite (chain_ConvertError_empty (dst := Brillo) pc' there).
  rewrite Hchain, <- list_fmap_compose.
  split; apply list_fmap_ext; intros _ link _;
    apply handed_over_idempotent.
Qed.

(** X4. A conversion into an empty destination reproduces the source
    chain link for link, locations included, exactly when no function
    or file name of the chain holds a NUL character. *)
Theorem ConvertError_exact_iff_nul_free {src dst} pc (source : Error src) :
  chain (ConvertError pc source None : ErrorPtr dst) = chain (Some source)
  ↔ forallb location_nul_free (chain (Some source)) = true.
Proof.
  rewrite chain_ConvertError_empty.
  generalize (chain (Some source)). intros links.
  induction links as [|link rest IH]; [done|]. cbn.
  rewrite andb_true_iff, <- IH, <- handed_over_fixed. split.
  - by intros [= -> ->].
  - by intros [-> ->].
Qed.

(** A function name with a NUL in it is cut there by the conversion. *)
Example ConvertError_cuts_at_NUL :
  let source : Error Brillo :=
    MkError (MkSnapshot ("f" +:+ String Ascii.zero "g") "x.cc" 7)
            "d" "c" "m" None in
  chain (ConvertError 0 source None : ErrorPtr Weave)
  = [MkEntry (MkSnapshot "f" "x.cc" 7) "d" "c" "m"]
  ∧ forallb location_nul_free (chain (Some source)) = false.
Proof. split; reflexivity. Qed.

End ConversionFacts.

(* ===================================================================== *)
(** * Further facts about the methods of the manager *)
(* ===================================================================== *)

Module ManagerMoreFacts.
Import Errors ErrorQueries Values Failures ObjectSchemas.
Import StateChanges StateManagers Commands CommandManagers.
Import Managers ManagerQueries Scenarios.
Import UpdateStateFacts AddCommandFacts.

Lemma HasError_Exists {lib} (p : ErrorPtr lib) domain code :
  HasError p domain code = true ↔
  Exists (λ link, entry_domain link = domain ∧ entry_code link = code)
         (chain p).
Proof.
  unfold HasError. generalize (chain p). intros links.
  induction links as [|link rest IH]; cbn.
  - split; [done|]. intros H. by apply Exists_nil in H.
  - rewrite Exists_cons, orb_true_iff, andb_true_iff, IH, !String.eqb_eq.
    done.
Qed.

(** X5. [CheckDeviceRegistered] answers a registered device with its id
    without looking at the error.  For a device that is not registered,
    with an error set, it answers with the empty id when the error chain
    holds a [gcd]/[device_not_registered] link at any depth, and passes
    the error on unchanged otherwise. *)
Theorem CheckDeviceRegistered_replies (registered : bool)
        (error : ErrorPtr Brillo) (device_id : string) :
  let outcome := CheckDeviceRegistered registered error device_id in
  let not_registered :=
    Exists (λ link, entry_domain link = kErrorDomainGCD
                    ∧ entry_code link = "device_not_registered")
           (chain error) in
  (registered = true → outcome = Some (Return device_id))
  ∧ (registered = false → not_registered → outcome = Some (Return ""))
  ∧ (registered = false → error ≠ None → ¬ not_registered →
     outcome = Some (ReplyWithError error)).
Proof.
  cbv zeta. unfold CheckDeviceRegistered.
  pose proof (HasError_Exists error kErrorDomainGCD "device_not_registered")
    as Hfind.
  destruct registered.
  - by split_and!.
  - destruct error as [e|].
    + destruct (HasError (Some e) kErrorDomainGCD "device_not_registered")
        eqn:Hhas; cbn [negb].
      * split_and!; try done.
        intros _ _ Hnot. destruct Hnot. by apply Hfind.
      * split_and!; try done.
        intros _ Hyes. apply Hfind in Hyes. discriminate.
    + split_and!; try done.
      intros _ Hyes. by apply Exists_nil in Hyes.
Qed.

(** A [device_not_registered] link wrapped by another error is found. *)
Example CheckDeviceRegistered_wrapped :
  let inner := MkError (MkSnapshot "f" "x.cc" 1) kErrorDomainGCD
                       "device_not_registered" "no credentials" None in
  let outer := MkError (MkSnapshot "g" "y.cc" 2) "http" "404" "not found"
                       (Some inner) in
  CheckDeviceRegistered false (Some outer) "id" = Some (Return "")
  ∧ CheckDeviceRegistered false (Some (MkError (MkSnapshot "g" "y.cc" 2)
                                          "http" "404" "not found" None)) "id"
    = Some (ReplyWithError (Some (MkError (MkSnapshot "g" "y.cc" 2)
                                    "http" "404" "not found" None))).
Proof. split; reflexivity. Qed.

(** X6. Once the registration service has answered, [RegisterDevice]
    returns the device id when it is not empty; with an empty id it
    replies with the error the service left or, when the service left
    none, with the single error [gcd]/[internal_error] it makes up: the
    reply is never an empty id and never a null error. *)
Theorem RegisterDevice_reply_after_registration (params : VariantDictionary) :
  match RegisterDevice params with
  | Respond _ => True
  | DeviceInfo_RegisterDevice _ resume =>
      ∀ (device_id : string) (error : ErrorPtr Brillo),
        (device_id ≠ "" → resume (device_id, error) = Respond (Return device_id))
        ∧ (device_id = "" →
           ∃ e, resume (device_id, error) = Respond (ReplyWithError (Some e))
                ∧ (error = Some e
                   ∨ error = None
                     ∧ GetDomain e = kErrorDomainGCD
                     ∧ GetCode e = "internal_error"
                     ∧ GetMessage e = "device_id empty but error not set"
                     ∧ GetInnerError e = None))
  end.
Proof.
  unfold RegisterDevice. destruct (collect_str_params params ∅); [|done].
  intros device_id error. split.
  - intros Hid. apply String.eqb_neq in Hid. by rewrite Hid.
  - intros ->. cbn. destruct error as [e|].
    + exists e. split; [done|by left].
    + eexists. split; [done|]. right. by split_and!.
Qed.

(** ** Commands: adding and looking up *)

(** What one [AddCommand] does to the manager: nothing on an error
    reply; on success, one more entry in the live set. *)
Lemma AddCommand_effect reader json_command next_id m :
  match AddCommand reader json_command next_id m with
  | Some (Return new_id, _, m') =>
      ∃ c, m' = with_instance new_id c m ∧ id c = new_id ∧ state c = Queued
  | Some (ReplyWithError _, _, m') => m' = m
  | None => True
  end.
Proof.
  destruct (acceptable reader (GetCommandDictionary (command_manager_ m))
                       json_command) eqn:Hacc.
  - destruct (AddCommand_accepted reader json_command next_id m Hacc)
      as (value & c & _ & Hfrom & ->).
    case_decide; [|done].
    destruct (FromJson_instance _ _ _ Hfrom) as (Hq & _).
    eexists. split; [reflexivity|]. by destruct c.
  - by destruct (AddCommand_rejected reader json_command next_id m Hacc)
      as (error & ->).
Qed.

(** One call has defined behaviour while the counter is below
    [INT_MAX]. *)
Lemma AddCommand_defined reader json_command next_id m :
  next_id < INT_MAX → is_Some (AddCommand reader json_command next_id m).
Proof.
  intros Hroom.
  destruct (acceptable reader (GetCommandDictionary (command_manager_ m))
                       json_command) eqn:Hacc.
  - destruct (AddCommand_accepted reader json_command next_id m Hacc)
      as (value & c & _ & _ & ->).
    rewrite decide_True by done. by eexists.
  - destruct (AddCommand_rejected reader json_command next_id m Hacc)
      as (error & ->). by eexists.
Qed.

(** X7. A command that [AddCommand] accepted is found by [GetCommand]
    under the id that was returned, queued and carrying that id, and the
    answers for all other ids are as before; a rejected [AddCommand]
    changes no answer.  An id that is not in the live set gets the
    [gcd]/[unknown_command] error whose message ends with the id.  (A
    call of [AddCommand] replies whenever the counter is below
    [INT_MAX].) *)
Theorem GetCommand_after_AddCommand
        (ToJson : CommandInstance → Value) (writer : Value → string)
        (reader : string → Value + string) (json_command : string)
        (next_id : Z) (m : Manager) :
  match AddCommand reader json_command next_id m with
  | Some (Return new_id, _, m') =>
      (∃ c, GetCommand ToJson writer new_id m'
            = Return (writer (ToJson c))
            ∧ id c = new_id ∧ state c = Queued)
      ∧ ∀ other, other ≠ new_id →
                 GetCommand ToJson writer other m'
                 = GetCommand ToJson writer other m
  | Some (ReplyWithError _, _, m') =>
      ∀ any, GetCommand ToJson writer any m'
             = GetCommand ToJson writer any m
  | None => True
  end
  ∧ (next_id < INT_MAX →
     is_Some (AddCommand reader json_command next_id m))
  ∧ ∀ command_id,
      FindCommandInstance command_id (command_manager_ m) = None →
      ∃ e, GetCommand ToJson writer command_id m = ReplyWithError (Some e)
           ∧ GetDomain e = kErrorDomainGCD
           ∧ GetCode e = "unknown_command"
           ∧ GetMessage e
             = ("Can't find command with id: " +:+ command_id)%string
           ∧ GetInnerError e = None.
Proof.
  pose proof (AddCommand_effect reader json_command next_id m) as Heffect.
  split_and!.
  - destruct (AddCommand reader json_command next_id m)
      as [[[[new_id|error] n'] m']|]; [..|done].
    + destruct Heffect as (c & -> & Hid & Hstate). split.
      * exists c. unfold GetCommand, FindCommandInstance. cbn.
        by rewrite lookup_insert_eq.
      * intros other Hother. unfold GetCommand, FindCommandInstance. cbn.
        by rewrite lookup_insert_ne.
    + intros any. by rewrite Heffect.
  - apply AddCommand_defined.
  - intros command_id Hnone. unfold GetCommand. rewrite Hnone.
    eexists. by split_and!.
Qed.

(** X8. Whether [AddCommand] accepts a text depends on the text and on
    the dictionary only, never on the calls before it: in a session the
    replies succeed exactly at the acceptable texts, as many ids are
    handed out as there are acceptable texts, and the session leaves the
    dictionary, the state manager, the queue and the adaptor alone.  (A
    session replies to every call whenever the counter can take all its
    acceptable texts without passing [INT_MAX].) *)
Theorem AddCommands_accepts_by_dictionary
        (reader : string → Value + string) (json_commands : list string)
        (next_id : Z) (m : Manager) :
  let dictionary := GetCommandDictionary (command_manager_ m) in
  let accepted_texts :=
    length (filter (λ b, b = true)
                   (acceptable reader dictionary <$> json_commands)) in
  (next_id + Z.of_nat accepted_texts ≤ INT_MAX →
   is_Some (AddCommands reader json_commands next_id m))
  ∧ ∀ replies next_id' m',
      AddCommands reader json_commands next_id m
        = Some (replies, next_id', m') →
      is_return <$> replies = acceptable reader dictionary <$> json_commands
      ∧ length (returned_ids replies) = accepted_texts
      ∧ GetCommandDictionary (command_manager_ m') = dictionary
      ∧ state_manager_ m' = state_manager_ m
      ∧ state_change_queue_ m' = state_change_queue_ m
      ∧ dbus_adaptor_ m' = dbus_adaptor_ m.
Proof.
  cbv zeta. split.
  - apply AddCommands_defined.
  - intros replies next_id' m' Hsession.
    destruct (AddCommands_session reader json_commands next_id m
                replies next_id' m' Hsession)
      as (Hreplies & _ & _ & Hrest).
    split_and!; [done| |apply Hrest..].
    by rewrite returned_ids_length, Hreplies.
Qed.

(** ** State updates in two requests *)





End ManagerMoreFacts.
